(** * Checkpointed indexing and Slack permission sync: a shallow embedding

    The Python sources embedded here are
    - [backend/onyx/db/models.py]                         ([IndexAttempt]),
    - [backend/onyx/connectors/mock_connector/connector.py] ([MockConnector]),
    - [backend/onyx/connectors/slack/utils.py]            (pagination, expert lookup),
    - [backend/ee/onyx/external_permissions/slack/doc_sync.py] (Slack doc sync).

    Python dictionaries are [gmap]s, Python sets are [gset]s, [None]-able
    values are [option]s, and a function that may raise returns a [Py.result].
    Generators are run to exhaustion: what they yield is a list, in order. *)

From Stdlib Require Import ZArith List Bool Lia Ascii String Sorted.
From stdpp Require Import base gmap sets list strings.

(** ** Python outcomes *)

Module Py.

(** The exception classes the embedded code raises or lets through. *)
Inductive exn : Type :=
| ValueError (msg : string)
| RuntimeError (msg : string)
| IndexError
| KeyError (key : string)
| TypeError
| HTTPStatusError
| SlackApiError.

(** [Return] is a normal return, [Raise] an exception that leaves the
    function, [OutOfFuel] a loop cut off by the step budget of the model
    (only the [while has_more] loop of the Slack pagination can do that). *)
Inductive result (A : Type) : Type :=
| Return (a : A)
| Raise (e : exn)
| OutOfFuel.

Arguments Return {A} a.
Arguments Raise {A} e.
Arguments OutOfFuel {A}.

Definition is_return {A} (r : result A) : bool :=
  match r with Return _ => true | _ => false end.

(** Truthiness of a [str | None] value: [None] and the empty string are falsy. *)
Definition truthy (s : option string) : bool :=
  match s with
  | Some EmptyString | None => false
  | Some _ => true
  end.

(** [a or b] on [str | None] values. *)
Definition or_else (a b : option string) : option string :=
  if truthy a then a else b.

(** A computation over a mutable store [S]: the store survives an exception. *)
Definition M (S A : Type) : Type := S -> result A * S.

Definition ret {S A} (a : A) : M S A := fun s => (Return a, s).

Definition raise {S A} (e : exn) : M S A := fun s => (Raise e, s).

Definition bind {S A B} (m : M S A) (k : A -> M S B) : M S B :=
  fun s =>
    match m s with
    | (Return a, s') => k a s'
    | (Raise e, s') => (Raise e, s')
    | (OutOfFuel, s') => (OutOfFuel, s')
    end.

Definition get {S} : M S S := fun s => (Return s, s).

Definition modify {S} (f : S -> S) : M S unit := fun s => (Return tt, f s).

Definition lift {S A} (r : result A) : M S A := fun s => (r, s).

End Py.

Import Py.

Declare Scope py_scope.
Delimit Scope py_scope with py.
Notation "x <- m ;; k" := (Py.bind m (fun x => k))
  (at level 100, m at next level, right associativity) : py_scope.
Notation "m ;;; k" := (Py.bind m (fun _ => k))
  (at level 100, right associativity) : py_scope.

(** ** [onyx.db.models] *)

Module Models.

(** The batch coordination columns of [IndexAttempt]; [total_batches] is
    nullable, [completed_batches] defaults to 0. *)
Record IndexAttempt : Type := {
  total_batches : option Z;
  completed_batches : Z;
}.

(** [self.total_batches is not None and
     self.completed_batches >= self.total_batches] *)
Definition is_coordination_complete (self : IndexAttempt) : bool :=
  match total_batches self with
  | None => false
  | Some total => (completed_batches self >=? total)%Z
  end.

End Models.

(** ** [onyx.access.models], [onyx.connectors.models] *)

Module Access.

(** Modelled from the spec: [ExternalAccess] of [onyx.access.models] is not
    among the sources; the spec gives it a set of external user
    identities, a set of external group identities and an [is_public] flag,
    and the callers construct it with exactly these three keywords. *)
Record ExternalAccess : Type := {
  external_user_emails : gset string;
  external_user_group_ids : gset string;
  is_public : bool;
}.

(** Modelled from the spec: [DocExternalAccess] of [onyx.access.models], built
    by the Slack doc sync from an access and a document id. *)
Record DocExternalAccess : Type := {
  dea_external_access : ExternalAccess;
  dea_doc_id : string;
}.

End Access.

Import Access.

Module Connectors.

(** Modelled from the spec: [Document] of [onyx.connectors.models] is not
    among the sources; the embedded code reads and writes only its
    [external_access] (and the doc sync its [id]). *)
Record Document : Type := {
  id : string;
  external_access : option ExternalAccess;
}.

(** Modelled from the spec: [ConnectorFailure] of [onyx.connectors.models], a
    per-document or per-range failure with its message. *)
Record ConnectorFailure : Type := {
  failed_document_id : option string;
  failure_message : string;
}.

(** Modelled from the spec: [SlimDocument] of [onyx.connectors.models], the
    document listing the permission sync consumes: an id and an optional
    access. *)
Module Slim.
Record SlimDocument : Type := {
  id : string;
  external_access : option ExternalAccess;
}.
End Slim.

(** Modelled from the spec: [BasicExpertInfo] of [onyx.connectors.models]; its
    fields are the four keywords of its construction in
    [expert_info_from_slack_id]. *)
Record BasicExpertInfo : Type := {
  display_name : option string;
  first_name : option string;
  last_name : option string;
  email : option string;
}.

End Connectors.

Import Connectors.

(** ** [onyx.connectors.mock_connector.connector] *)

Module MockConnector.

Definition EXTERNAL_USER_EMAILS : gset string :=
  {[ "test@example.com"; "admin@example.com" ]}.

Definition EXTERNAL_USER_GROUP_IDS : gset string :=
  {[ "mock-group-1"; "mock-group-2" ]}.

(** [class MockConnectorCheckpoint(ConnectorCheckpoint)]: the base class
    brings [has_more], the subclass adds [last_document_id]. *)
Record MockConnectorCheckpoint : Type := {
  has_more : bool;
  last_document_id : option string;
}.

Record SingleConnectorYield : Type := {
  documents : list Document;
  checkpoint : MockConnectorCheckpoint;
  failures : list ConnectorFailure;
  unhandled_exception : option string;
}.

(** The mutable attributes of a [MockConnector] instance. *)
Record t : Type := {
  connector_yields : option (list SingleConnectorYield);
  current_yield_index : nat;
}.

(** [__init__]: no yields configured, index 0. *)
Definition init : t :=
  {| connector_yields := None; current_yield_index := 0 |}.

(** The mock server behind [self.client]: what [get-documents] answers,
    whether [add-checkpoint] answers with a success status, and the
    checkpoints it has stored so far, oldest first. *)
Record MockServer : Type := {
  get_documents : result (list SingleConnectorYield);
  add_checkpoint_ok : bool;
  stored_checkpoints : list MockConnectorCheckpoint;
}.

(** What one call of a checkpointed generator does that an observer sees,
    in order: a checkpoint stored by the server, an item handed to the
    consumer. *)
Inductive event : Type :=
| Saved (cp : MockConnectorCheckpoint)
| Yielded (item : Document + ConnectorFailure).

(** A generator run to exhaustion: its events, how it ended
    ([Return] carries the generator's return value), and the connector and
    the server afterwards. *)
Record run : Type := {
  trace : list event;
  outcome : result MockConnectorCheckpoint;
  connector_after : t;
  server_after : MockServer;
}.

Definition yielded_of (e : event) : option (Document + ConnectorFailure) :=
  match e with
  | Saved _ => None
  | Yielded item => Some item
  end.

(** The items the consumer receives, in order. *)
Definition yielded (r : run) : list (Document + ConnectorFailure) :=
  omap yielded_of (trace r).

Definition load_credentials (self : t) (server : MockServer) : result unit * t :=
  match get_documents server with
  | Return data =>
      (Return tt, {| connector_yields := Some data;
                     current_yield_index := current_yield_index self |})
  | Raise e => (Raise e, self)
  | OutOfFuel => (OutOfFuel, self)
  end.

(** [_save_checkpoint]: POST to [add-checkpoint], then [raise_for_status]. *)
Definition _save_checkpoint (server : MockServer) (checkpoint : MockConnectorCheckpoint)
    : result unit * MockServer :=
  if add_checkpoint_ok server then
    (Return tt,
     {| get_documents := get_documents server;
        add_checkpoint_ok := add_checkpoint_ok server;
        stored_checkpoints := stored_checkpoints server ++ [checkpoint] |})
  else (Raise HTTPStatusError, server).

(** The body of the [for document in current_yield.documents] loop up to
    its [yield]: the document object is updated in place. *)
Definition with_mock_permissions (include_permissions : bool) (document : Document)
    : Document :=
  match include_permissions, external_access document with
  | true, None =>
      {| id := id document;
         external_access :=
           Some {| external_user_emails := EXTERNAL_USER_EMAILS;
                   external_user_group_ids := EXTERNAL_USER_GROUP_IDS;
                   is_public := false |} |}
  | _, _ => document
  end.

Definition _load_from_checkpoint_common
    (self : t) (server : MockServer)
    (checkpoint : MockConnectorCheckpoint) (include_permissions : bool) : run :=
  match connector_yields self with
  | None =>
      {| trace := [];
         outcome := Raise (ValueError "No connector yields configured");
         connector_after := self;
         server_after := server |}
  | Some yields =>
      match _save_checkpoint server checkpoint with
      | (Return _, server') =>
          let yield_index := current_yield_index self in
          let bumped (ys : list SingleConnectorYield) :=
            {| connector_yields := Some ys;
               current_yield_index := current_yield_index self + 1 |} in
          match yields !! yield_index with
          | None =>
              {| trace := [Saved checkpoint];
                 outcome := Raise IndexError;
                 connector_after := bumped yields;
                 server_after := server' |}
          | Some current_yield =>
              if truthy (unhandled_exception current_yield) then
                {| trace := [Saved checkpoint];
                   outcome := Raise (RuntimeError
                                       (default "" (unhandled_exception current_yield)));
                   connector_after := bumped yields;
                   server_after := server' |}
              else
                let docs :=
                  map (with_mock_permissions include_permissions)
                      (documents current_yield) in
                let current_yield' :=
                  {| documents := docs;
                     checkpoint := MockConnector.checkpoint current_yield;
                     failures := failures current_yield;
                     unhandled_exception := unhandled_exception current_yield |} in
                {| trace := Saved checkpoint
                            :: map (fun d => Yielded (inl d)) docs
                            ++ map (fun f => Yielded (inr f)) (failures current_yield);
                   outcome := Return (MockConnector.checkpoint current_yield);
                   connector_after := bumped (<[yield_index := current_yield']> yields);
                   server_after := server' |}
          end
      | (Raise e, server') =>
          {| trace := []; outcome := Raise e;
             connector_after := self; server_after := server' |}
      | (OutOfFuel, server') =>
          {| trace := []; outcome := OutOfFuel;
             connector_after := self; server_after := server' |}
      end
  end.

Definition load_from_checkpoint
    (self : t) (server : MockServer) (checkpoint : MockConnectorCheckpoint) : run :=
  _load_from_checkpoint_common self server checkpoint false.

Definition load_from_checkpoint_with_perm_sync
    (self : t) (server : MockServer) (checkpoint : MockConnectorCheckpoint) : run :=
  _load_from_checkpoint_common self server checkpoint true.

Definition build_dummy_checkpoint : MockConnectorCheckpoint :=
  {| has_more := true; last_document_id := None |}.

End MockConnector.

(** ** The Slack SDK as the embedded code sees it *)

Module SlackSdk.

(** The JSON objects under a [users.info] response. A key that may be
    missing is an [option]. *)
Record Profile : Type := {
  display_name : option string;
  first_name : option string;
  last_name : option string;
  email : option string;
}.

Record User : Type := {
  real_name : option string;
  profile : option Profile;
}.

Record SlackResponse : Type := {
  ok : bool;
  user : option User;
}.

(** One validated page of a cursor-paginated method: its payload and
    [response_metadata.next_cursor] (the empty string when missing). *)
Record Page (A : Type) : Type := {
  data : A;
  next_cursor : string;
}.
Arguments data {A} _.
Arguments next_cursor {A} _.

(** The payload of a [conversations.members] page: its ["members"] key. *)
Record Members : Type := {
  members : option (list string);
}.

(** A channel dictionary of [conversations.list]: its ["id"] key. *)
Record Channel : Type := {
  channel_id : option string;
}.

(** The two [WebClient] methods the embedded code calls. Each answers with
    a response or raises; [conversations_members] takes the channel, the
    cursor and the page limit, and its answer is the validated page, so
    that a response [validate] rejects is a [Raise]. *)
Record WebClient : Type := {
  users_info : string -> result SlackResponse;
  conversations_members :
    string -> option string -> Z -> result (Page Members);
}.

(** The requests sent to Slack, as recorded in order. *)
Inductive api_call : Type :=
| CallUsersInfo (user : string)
| CallConversationsMembers (channel : string) (cursor : option string) (limit : Z)
| CallGetChannels (get_public get_private : bool)
| CallFetchUserIdToEmailMap
| CallRetrieveAllSlimDocuments.

(** The store one run works on: a dictionary that is mutated in place (the
    user-id-to-email map, or the expert cache) and the requests sent. *)
Record world (C : Type) : Type := {
  cache : C;
  calls : list api_call;
}.
Arguments cache {C} _.
Arguments calls {C} _.

Definition log {C} (c : api_call) : M (world C) unit :=
  modify (fun w => {| cache := cache w; calls := calls w ++ [c] |}).

Definition update_cache {C} (f : C -> C) : M (world C) unit :=
  modify (fun w => {| cache := f (cache w); calls := calls w |}).

(** [client.users_info(user=user_id)] *)
Definition call_users_info {C} (client : WebClient) (user_id : string)
    : M (world C) SlackResponse :=
  (log (CallUsersInfo user_id) ;;; lift (users_info client user_id))%py.

(** [slack_client.conversations_members] partially applied to a channel, as
    [make_paginated_slack_api_call] receives it. *)
Definition call_conversations_members {C} (client : WebClient) (channel : string)
    (cursor : option string) (limit : Z) : M (world C) (Page Members) :=
  (log (CallConversationsMembers channel cursor limit) ;;;
   lift (conversations_members client channel cursor limit))%py.

End SlackSdk.

(** ** [onyx.connectors.slack.utils] *)

Module SlackUtils.
Import SlackSdk.

Definition _SLACK_LIMIT : Z := 900.

(** The [paginated_call] of [_make_slack_api_call_paginated], consumed to the end:
    the pages it yields. One unit of [fuel] is one turn of
    [while has_more]. *)
Fixpoint paginated_call {C A} (fuel : nat)
    (call : option string -> Z -> M (world C) (Page A))
    (cursor : option string) : M (world C) (list A) :=
  match fuel with
  | O => lift OutOfFuel
  | S fuel' =>
      (response <- call cursor _SLACK_LIMIT ;;
       let cursor' := next_cursor response in
       if truthy (Some cursor') then
         rest <- paginated_call fuel' call (Some cursor') ;;
         ret (data response :: rest)
       else ret [data response])%py
  end.

Definition make_paginated_slack_api_call {C A} (fuel : nat)
    (call : option string -> Z -> M (world C) (Page A)) : M (world C) (list A) :=
  paginated_call fuel call None.

(** The [BasicExpertInfo] built from an ok response. *)
Definition expert_of_response (response : SlackResponse) : BasicExpertInfo :=
  let user_real_name := from_option real_name None (user response) in
  let profile := from_option SlackSdk.profile None (user response) in
  let field (f : Profile -> option string) := from_option f None profile in
  {| Connectors.display_name :=
       or_else user_real_name (field SlackSdk.display_name);
     Connectors.first_name := field SlackSdk.first_name;
     Connectors.last_name := field SlackSdk.last_name;
     Connectors.email := field SlackSdk.email |}.

Definition expert_info_from_slack_id
    (user_id : option string) (client : WebClient)
    : M (world (gmap string (option BasicExpertInfo))) (option BasicExpertInfo) :=
  if negb (truthy user_id) then ret None
  else
    let user_id := default "" user_id in
    (w <- get ;;
     match cache w !! user_id with
     | Some cached => ret cached
     | None =>
         response <- call_users_info client user_id ;;
         if negb (ok response) then
           update_cache (insert user_id None) ;;; ret None
         else
           let expert := expert_of_response response in
           update_cache (insert user_id (Some expert)) ;;; ret (Some expert)
     end)%py.

End SlackUtils.

(** ** [ee.onyx.external_permissions.slack.doc_sync] *)

Module SlackDocSync.
Import SlackSdk SlackUtils.

(** What the indexing heartbeat answers: [should_stop n] is the answer to
    the call of [callback.should_stop()] made after [n] earlier ones. *)
Record IndexingHeartbeatInterface : Type := {
  should_stop : nat -> bool;
}.

(** Functions of the repository that are called here and are not among the
    sources, taken by their results: [get_channels] of the Slack connector,
    [fetch_user_id_to_email_map] of the Slack permission utilities, and the
    batches [SlackConnector.retrieve_all_slim_documents] yields, with the
    exception that ends the listing if there is one. *)
Record Collaborators : Type := {
  get_channels : bool -> bool -> result (list Channel);
  fetch_user_id_to_email_map : result (gmap string string);
  retrieve_all_slim_documents : list (list Slim.SlimDocument) * option exn;
}.

Abbreviation st := (world (gmap string string)).

Definition call_get_channels (env : Collaborators) (get_public get_private : bool)
    : M st (list Channel) :=
  (log (CallGetChannels get_public get_private) ;;;
   lift (get_channels env get_public get_private))%py.

Definition _fetch_workspace_permissions (user_id_to_email_map : gmap string string)
    : ExternalAccess :=
  let user_emails : gset string := map_img user_id_to_email_map in
  {| external_user_emails := user_emails;
     external_user_group_ids := ∅;
     is_public := false |}.

(** [member_info["user"]["profile"].get("email")]: indexing the response
    gives [None] for a missing ["user"], which cannot be indexed; a user
    without ["profile"] is a [KeyError]. *)
Definition email_of_member_info (member_info : SlackResponse) : result (option string) :=
  match user member_info with
  | None => Raise TypeError
  | Some u =>
      match profile u with
      | None => Raise (KeyError "profile")
      | Some p => Return (email p)
      end
  end.

(** The loop [for member_id in member_ids] over the shared
    [user_id_to_email_map], with [member_emails] as accumulator. *)
Fixpoint collect_member_emails (slack_client : WebClient)
    (member_ids : list string) (member_emails : gset string) : M st (gset string) :=
  match member_ids with
  | [] => ret member_emails
  | member_id :: rest =>
      (w <- get ;;
       let member_email := cache w !! member_id in
       if negb (truthy member_email) then
         member_info <- call_users_info slack_client member_id ;;
         member_email <- lift (email_of_member_info member_info) ;;
         if negb (truthy member_email) then
           collect_member_emails slack_client rest member_emails
         else
           let member_email := default "" member_email in
           update_cache (insert member_id member_email) ;;;
           collect_member_emails slack_client rest (member_emails ∪ {[ member_email ]})
       else
         let member_email := default "" member_email in
         collect_member_emails slack_client rest (member_emails ∪ {[ member_email ]}))%py
  end.

(** The member ids of a channel: [member_ids.extend(result.get("members", []))]
    over all pages. *)
Definition collect_member_ids (fuel : nat) (slack_client : WebClient)
    (channel_id : string) : M st (list string) :=
  (pages <- make_paginated_slack_api_call fuel
              (call_conversations_members slack_client channel_id) ;;
   ret (concat (map (fun result => default [] (members result)) pages)))%py.

(** The loop [for channel_id in private_channel_ids]. *)
Fixpoint private_channels_loop (fuel : nat) (slack_client : WebClient)
    (private_channel_ids : list string)
    (channel_permissions : gmap string ExternalAccess)
    : M st (gmap string ExternalAccess) :=
  match private_channel_ids with
  | [] => ret channel_permissions
  | channel_id :: rest =>
      (member_ids <- collect_member_ids fuel slack_client channel_id ;;
       member_emails <- collect_member_emails slack_client member_ids ∅ ;;
       private_channels_loop fuel slack_client rest
         (<[channel_id :=
              {| external_user_emails := member_emails;
                 external_user_group_ids := ∅;
                 is_public := false |}]> channel_permissions))%py
  end.

(** [[channel["id"] for channel in channels if "id" in channel]] *)
Definition channel_ids (channels : list Channel) : list string :=
  omap channel_id channels.

(** The loop [for channel_id in public_channel_ids]. *)
Definition public_channels_loop (workspace_permissions : ExternalAccess)
    (public_channel_ids : list string)
    (channel_permissions : gmap string ExternalAccess) : gmap string ExternalAccess :=
  foldl (fun acc channel_id => <[channel_id := workspace_permissions]> acc)
        channel_permissions public_channel_ids.

Definition _fetch_channel_permissions (fuel : nat) (env : Collaborators)
    (slack_client : WebClient) (workspace_permissions : ExternalAccess)
    : M st (gmap string ExternalAccess) :=
  (public_channels <- call_get_channels env true false ;;
   let public_channel_ids := channel_ids public_channels in
   let channel_permissions :=
     public_channels_loop workspace_permissions public_channel_ids ∅ in
   private_channels <- call_get_channels env false true ;;
   let private_channel_ids := channel_ids private_channels in
   private_channels_loop fuel slack_client private_channel_ids channel_permissions)%py.

(** A generator of access records run to exhaustion. *)
Record gen : Type := {
  yielded : list DocExternalAccess;
  outcome : result unit;
}.

Definition no_access_message (doc_id : string) : string :=
  "No external access for document " +:+ doc_id +:+ ". "
  +:+ "Please check to make sure that your Slack bot token has the "
  +:+ "`channels:read` scope".

(** The loop [for doc_metadata in doc_metadata_batch]. *)
Fixpoint document_access_batch (doc_metadata_batch : list Slim.SlimDocument) : gen :=
  match doc_metadata_batch with
  | [] => {| yielded := []; outcome := Return tt |}
  | doc_metadata :: rest =>
      match Slim.external_access doc_metadata with
      | None =>
          {| yielded := [];
             outcome := Raise (ValueError (no_access_message (Slim.id doc_metadata))) |}
      | Some access =>
          let g := document_access_batch rest in
          {| yielded := {| dea_external_access := access;
                           dea_doc_id := Slim.id doc_metadata |} :: yielded g;
             outcome := outcome g |}
      end
  end.

(** The loop [for doc_metadata_batch in slim_doc_generator]; [asked] counts
    the calls of [callback.should_stop()] made so far. *)
Fixpoint document_access_loop (batches : list (list Slim.SlimDocument))
    (ending : option exn) (callback : option IndexingHeartbeatInterface)
    (asked : nat) : gen :=
  match batches with
  | [] =>
      {| yielded := [];
         outcome := match ending with Some e => Raise e | None => Return tt end |}
  | doc_metadata_batch :: rest =>
      let g := document_access_batch doc_metadata_batch in
      match outcome g with
      | Return _ =>
          let stop :=
            match callback with
            | Some cb => should_stop cb asked
            | None => false
            end in
          if stop then
            {| yielded := yielded g;
               outcome :=
                 Raise (RuntimeError "_get_slack_document_access: Stop signal detected") |}
          else
            let g' := document_access_loop rest ending callback (S asked) in
            {| yielded := yielded g ++ yielded g'; outcome := outcome g' |}
      | _ => g
      end
  end.

(** [channel_permissions] is a parameter the body never reads. *)
Definition _get_slack_document_access (env : Collaborators)
    (channel_permissions : gmap string ExternalAccess)
    (callback : option IndexingHeartbeatInterface) : gen :=
  document_access_loop (fst (retrieve_all_slim_documents env))
                       (snd (retrieve_all_slim_documents env)) callback 0.

(** What a run of [slack_doc_sync] leaves behind: the records it yielded,
    how it ended, the requests it sent, and the permissions it computed
    before listing the documents, if it got that far. *)
Record sync : Type := {
  sync_yielded : list DocExternalAccess;
  sync_outcome : result unit;
  sync_calls : list api_call;
  sync_permissions : option (ExternalAccess * gmap string ExternalAccess);
}.

Definition slack_doc_sync (fuel : nat) (env : Collaborators) (slack_client : WebClient)
    (callback : option IndexingHeartbeatInterface) : sync :=
  let failed (r : result unit) (cs : list api_call) :=
    {| sync_yielded := []; sync_outcome := r; sync_calls := cs;
       sync_permissions := None |} in
  match fetch_user_id_to_email_map env with
  | Return user_id_to_email_map =>
      if decide (user_id_to_email_map = ∅) then
        failed (Raise (ValueError
                 ("No user id to email map found. Please check to make sure that "
                  +:+ "your Slack bot token has the `users:read.email` scope")))
               [CallFetchUserIdToEmailMap]
      else
        let workspace_permissions :=
          _fetch_workspace_permissions user_id_to_email_map in
        match _fetch_channel_permissions fuel env slack_client workspace_permissions
                {| cache := user_id_to_email_map;
                   calls := [CallFetchUserIdToEmailMap] |} with
        | (Return channel_permissions, w) =>
            let g := _get_slack_document_access env channel_permissions callback in
            {| sync_yielded := yielded g;
               sync_outcome := outcome g;
               sync_calls := calls w ++ [CallRetrieveAllSlimDocuments];
               sync_permissions := Some (workspace_permissions, channel_permissions) |}
        | (Raise e, w) => failed (Raise e) (calls w)
        | (OutOfFuel, w) => failed OutOfFuel (calls w)
        end
  | Raise e => failed (Raise e) [CallFetchUserIdToEmailMap]
  | OutOfFuel => failed OutOfFuel [CallFetchUserIdToEmailMap]
  end.

End SlackDocSync.

(** ** Concrete inputs used by the examples *)

Module Examples.
Import MockConnector.

Definition doc_without_access : Document :=
  {| id := "doc-1"; external_access := None |}.

Definition doc_with_access : Document :=
  {| id := "doc-2";
     external_access :=
       Some {| external_user_emails := {[ "owner@example.com" ]};
               external_user_group_ids := ∅;
               is_public := true |} |}.

Definition a_failure : ConnectorFailure :=
  {| failed_document_id := Some "doc-3"; failure_message := "could not fetch" |}.

Definition next_checkpoint : MockConnectorCheckpoint :=
  {| has_more := false; last_document_id := Some "doc-2" |}.

Definition one_yield : SingleConnectorYield :=
  {| documents := [doc_without_access; doc_with_access];
     checkpoint := next_checkpoint;
     failures := [a_failure];
     unhandled_exception := None |}.

Definition loaded_connector : MockConnector.t :=
  {| connector_yields := Some [one_yield]; current_yield_index := 0 |}.

Definition server : MockServer :=
  {| get_documents := Return [one_yield];
     add_checkpoint_ok := true;
     stored_checkpoints := [] |}.

(** The access the mock connector gives a document that has none. *)
Definition mock_access : ExternalAccess :=
  {| external_user_emails := EXTERNAL_USER_EMAILS;
     external_user_group_ids := EXTERNAL_USER_GROUP_IDS;
     is_public := false |}.

End Examples.

Module SlackExamples.
Import SlackSdk SlackUtils SlackDocSync.

(** A workspace with two listed users, an external user whose email only
    [users.info] gives, and a user without any email. *)
Definition listed_users : gmap string string :=
  {[ "U1" := "ann@example.com"; "U2" := "bob@example.com" ]}.

Definition profile_with (address : option string) : Profile :=
  {| SlackSdk.display_name := Some "";
     SlackSdk.first_name := None;
     SlackSdk.last_name := None;
     SlackSdk.email := address |}.

Definition user_response (name : string) (address : option string) : SlackResponse :=
  {| ok := true;
     user := Some {| real_name := Some name; profile := Some (profile_with address) |} |}.

Definition client : WebClient :=
  {| users_info := fun user_id =>
       if String.eqb user_id "U-ext" then
         Return (user_response "Eve" (Some "eve@partner.example"))
       else if String.eqb user_id "U-ghost" then Return (user_response "Ghost" None)
       else if String.eqb user_id "U-gone" then Return {| ok := false; user := None |}
       else Raise SlackApiError;
     conversations_members := fun channel cursor limit =>
       if String.eqb channel "C-priv-1" then
         match cursor with
         | None =>
             Return {| data := {| members := Some ["U1"; "U-ext"; "U-ghost"] |};
                       next_cursor := "page-2" |}
         | Some _ =>
             Return {| data := {| members := Some ["U2"] |}; next_cursor := "" |}
         end
       else if String.eqb channel "C-priv-2" then
         Return {| data := {| members := Some ["U-ext"; "U-ghost"] |};
                   next_cursor := "" |}
       else Raise SlackApiError |}.

Definition slim_with_access : Slim.SlimDocument :=
  {| Slim.id := "C-priv-1__1700000000.000100";
     Slim.external_access :=
       Some {| external_user_emails := {[ "ann@example.com" ]};
               external_user_group_ids := ∅;
               is_public := false |} |}.

Definition slim_without_access : Slim.SlimDocument :=
  {| Slim.id := "C-pub__1700000000.000200"; Slim.external_access := None |}.

Definition workspace (slim : list (list Slim.SlimDocument)) : Collaborators :=
  {| get_channels := fun get_public get_private =>
       if get_public then
         Return [ {| channel_id := Some "C-pub" |}; {| channel_id := None |} ]
       else
         Return [ {| channel_id := Some "C-priv-1" |};
                  {| channel_id := Some "C-priv-2" |} ];
     fetch_user_id_to_email_map := Return listed_users;
     retrieve_all_slim_documents := (slim, None) |}.

(** The same workspace seen through a token that cannot read emails. *)
Definition workspace_without_emails : Collaborators :=
  {| get_channels := get_channels (workspace []);
     fetch_user_id_to_email_map := Return ∅;
     retrieve_all_slim_documents := ([[slim_with_access]], None) |}.

(** One full run of the doc sync on that workspace. *)
Definition example_run : sync :=
  slack_doc_sync 8 (workspace [[slim_with_access]]) client None.

End SlackExamples.

(** ** Vocabulary for the statements about member resolution *)

Module Resolution.
Import SlackSdk SlackUtils SlackDocSync.

(** The non-empty email a fallback [users_info] lookup finds for a member,
    if it finds one. *)
Definition looked_up_email (slack_client : WebClient) (member_id : string)
    : option string :=
  match users_info slack_client member_id with
  | Return member_info =>
      match email_of_member_info member_info with
      | Return member_email => if truthy member_email then member_email else None
      | _ => None
      end
  | _ => None
  end.

(** The email of a member: the one the map fetched at the start has, when
    it has a non-empty one, and the looked-up one otherwise. *)
Definition resolve (slack_client : WebClient) (fetched : gmap string string)
    (member_id : string) : option string :=
  if truthy (fetched !! member_id) then fetched !! member_id
  else looked_up_email slack_client member_id.

(** The pages of [conversations.members] for a channel, without the
    bookkeeping of requests. *)
Fixpoint member_pages (fuel : nat) (slack_client : WebClient) (channel : string)
    (cursor : option string) : result (list Members) :=
  match fuel with
  | O => OutOfFuel
  | S fuel' =>
      match conversations_members slack_client channel cursor _SLACK_LIMIT with
      | Return response =>
          if truthy (Some (next_cursor response)) then
            match member_pages fuel' slack_client channel
                    (Some (next_cursor response)) with
            | Return rest => Return (data response :: rest)
            | Raise e => Raise e
            | OutOfFuel => OutOfFuel
            end
          else Return [data response]
      | Raise e => Raise e
      | OutOfFuel => OutOfFuel
      end
  end.

Definition member_ids_of (fuel : nat) (slack_client : WebClient) (channel : string)
    : result (list string) :=
  match member_pages fuel slack_client channel None with
  | Return pages =>
      Return (concat (map (fun page => default [] (members page)) pages))
  | Raise e => Raise e
  | OutOfFuel => OutOfFuel
  end.

Definition is_users_info_for (member_id : string) (c : api_call) : bool :=
  match c with
  | CallUsersInfo requested => String.eqb member_id requested
  | _ => false
  end.

(** How many [users_info] requests for a member a run has sent. *)
Definition users_info_count (member_id : string) (sent : list api_call) : nat :=
  length (List.filter (is_users_info_for member_id) sent).

(** Where a member stands during a run that started from the map [fetched]:
    either its entry is still the fetched one, and it was never looked up
    unless no lookup can find an email for it; or it had no email, was looked
    up exactly once, and its entry is the email found. *)
Definition member_state (slack_client : WebClient) (fetched : gmap string string)
    (w : world (gmap string string)) (member_id : string) : Prop :=
  (cache w !! member_id = fetched !! member_id
   /\ (users_info_count member_id (calls w) = 0
       \/ looked_up_email slack_client member_id = None))
  \/ (truthy (fetched !! member_id) = false
      /\ truthy (cache w !! member_id) = true
      /\ cache w !! member_id = looked_up_email slack_client member_id
      /\ users_info_count member_id (calls w) = 1).

Definition consistent (slack_client : WebClient) (fetched : gmap string string)
    (w : world (gmap string string)) : Prop :=
  forall member_id, member_state slack_client fetched w member_id.

End Resolution.

(** ** Calls made one after the other on the mock connector *)

Module MockSessions.
Import MockConnector.

(** One call as the caller makes it: [load_from_checkpoint_with_perm_sync]
    when [with_perm_sync] is set, [load_from_checkpoint] otherwise, with the
    checkpoint passed in. *)
Record call : Type := {
  with_perm_sync : bool;
  passed : MockConnectorCheckpoint;
}.

(** The runs of a list of calls on the same connector and server, oldest
    first; each call starts from what the one before left. *)
Fixpoint call_each (calls : list call) (self : MockConnector.t) (server : MockServer)
    : list run :=
  match calls with
  | [] => []
  | c :: rest =>
      let r := _load_from_checkpoint_common self server (passed c) (with_perm_sync c) in
      r :: call_each rest (connector_after r) (server_after r)
  end.

(** The connector and the server after a list of calls. *)
Fixpoint after_calls (calls : list call) (self : MockConnector.t) (server : MockServer)
    : MockConnector.t * MockServer :=
  match calls with
  | [] => (self, server)
  | c :: rest =>
      let r := _load_from_checkpoint_common self server (passed c) (with_perm_sync c) in
      after_calls rest (connector_after r) (server_after r)
  end.

End MockSessions.

(** ** Vocabulary for the statements about the document listing *)

Module Listing.
Import SlackDocSync.

(** The record [_get_slack_document_access] builds for a listed document
    that has an access. *)
Definition record_of (doc_metadata : Slim.SlimDocument) : option DocExternalAccess :=
  match Slim.external_access doc_metadata with
  | Some access =>
      Some {| dea_external_access := access; dea_doc_id := Slim.id doc_metadata |}
  | None => None
  end.

Definition has_access (doc_metadata : Slim.SlimDocument) : Prop :=
  Slim.external_access doc_metadata <> None.

(** The callback, if there is one, answers no stop to the calls number
    [first], ..., [first + count - 1] of [should_stop]. *)
Definition keeps_going (callback : option IndexingHeartbeatInterface)
    (first count : nat) : Prop :=
  match callback with
  | Some cb => forall i, first <= i < first + count -> should_stop cb i = false
  | None => True
  end.

End Listing.

(** ** Vocabulary for the statements about pagination *)

Module Pagination.
Import SlackSdk SlackUtils.

(** The cursors of the requests that fetch the responses [earlier] and one
    more after them, starting from [start]: each request after the first
    carries the [next_cursor] of the response before. *)
Definition cursors_for {A} (start : option string) (earlier : list (Page A))
    : list (option string) :=
  start :: map (fun response => Some (next_cursor response)) earlier.

(** The [conversations.members] requests for those cursors. *)
Definition member_requests (channel : string) (cursors : list (option string))
    : list api_call :=
  map (fun cursor => CallConversationsMembers channel cursor _SLACK_LIMIT) cursors.

End Pagination.

(** ** Python strings

    A [str] is its UTF-8 text as a [string]. The methods below look for
    ASCII characters or for whole pieces of the text itself, which in UTF-8
    match at the same places bytewise as characterwise. *)

Module PyStr.

(** [s.startswith(prefix)] *)
Fixpoint startswith (prefix s : string) : bool :=
  match prefix, s with
  | EmptyString, _ => true
  | String a prefix', String b s' => if Ascii.eqb a b then startswith prefix' s' else false
  | String _ _, EmptyString => false
  end.

(** [sub in s] *)
Fixpoint contains (sub s : string) : bool :=
  if startswith sub s then true
  else match s with
       | EmptyString => false
       | String _ s' => contains sub s'
       end.

(** The scan of [s.replace(old, new)] for a non-empty [old], left to right:
    [skip] counts the characters of a match still to pass over. *)
Fixpoint replace_scan (old new : string) (skip : nat) (s : string) : string :=
  match s with
  | EmptyString => EmptyString
  | String c s' =>
      match skip with
      | S skip' => replace_scan old new skip' s'
      | O =>
          if startswith old s then
            new +:+ replace_scan old new (String.length old - 1) s'
          else String c (replace_scan old new 0 s')
      end
  end.

(** With an empty [old], [new] goes before every character and at the end. *)
Fixpoint replace_between (new s : string) : string :=
  match s with
  | EmptyString => new
  | String c s' => new +:+ String c (replace_between new s')
  end.

(** [s.replace(old, new)]: every occurrence of [old], leftmost first and
    without overlap, is replaced by [new]. *)
Definition replace (old new s : string) : string :=
  match old with
  | EmptyString => replace_between new s
  | String _ _ => replace_scan old new 0 s
  end.

(** [s.rstrip(c)] for a single character [c]. *)
Fixpoint rstrip (c : ascii) (s : string) : string :=
  match s with
  | EmptyString => EmptyString
  | String x s' =>
      match rstrip c s' with
      | EmptyString => if Ascii.eqb x c then EmptyString else String x EmptyString
      | rest => String x rest
      end
  end.

End PyStr.

(** ** [NullFilteredString] of [onyx.db.models] *)

Module NullFilteredString.
Import PyStr.

Definition NUL : string := String "000"%char EmptyString.

(** [process_bind_param]: the warning it logs is not modelled. *)
Definition process_bind_param (value : option string) : option string :=
  match value with
  | Some text => if contains NUL text then Some (replace NUL "" text) else Some text
  | None => None
  end.

Definition process_result_value (value : option string) : option string := value.

End NullFilteredString.

(** ** [SlackTextCleaner] of [onyx.connectors.slack.utils]: the static methods *)

Module SlackTextCleaner.
Import PyStr.

(** The attempt to match [<@(.*?)>] where the text after ["<@"] is [s]: the
    group is the text up to the first [">"], and there is no match when a
    newline or the end of the text comes first ([.] matches no newline). *)
Fixpoint tag_group (s : string) : option string :=
  match s with
  | EmptyString => None
  | String c s' =>
      if Ascii.eqb c ">"%char then Some EmptyString
      else if Ascii.eqb c "010"%char then None
      else option_map (String c) (tag_group s')
  end.

(** The scan of [re.findall("<@(.*?)>", message)]: at each position not
    inside an earlier match, try the pattern; [skip] counts the characters of
    a match still to pass over. *)
Fixpoint findall_tags_scan (skip : nat) (s : string) : list string :=
  match s with
  | EmptyString => []
  | String c s' =>
      match skip with
      | S skip' => findall_tags_scan skip' s'
      | O =>
          match s with
          | String "<"%char (String "@"%char rest) =>
              match tag_group rest with
              | Some user_id =>
                  user_id :: findall_tags_scan (String.length user_id + 2) s'
              | None => findall_tags_scan 0 s'
              end
          | _ => findall_tags_scan 0 s'
          end
      end
  end.

Definition findall_tags (message : string) : list string :=
  findall_tags_scan 0 message.

Definition replace_tags_basic (message : string) : string :=
  let user_ids := findall_tags message in
  fold_left (fun message user_id =>
               replace ("<@" +:+ user_id +:+ ">") ("@" +:+ user_id) message)
            user_ids message.

Definition replace_special_mentions (message : string) : string :=
  let message := replace "<!channel>" "@channel" message in
  let message := replace "<!here>" "@here" message in
  let message := replace "<!everyone>" "@everyone" message in
  message.

(** U+200B, the zero width space, in UTF-8. *)
Definition ZERO_WIDTH_SPACE : string :=
  String "226"%char (String "128"%char (String "139"%char EmptyString)).

Definition add_zero_width_whitespace_after_tag (message : string) : string :=
  replace "@" ("@" +:+ ZERO_WIDTH_SPACE) message.

(** *** The methods that look names up *)

(** The keys of a [users.info] response that [_get_slack_name] reads:
    [response["user"]["profile"]] with its ["display_name"] and
    ["real_name"]. A key that is missing is [None]. *)
Record NameProfile : Type := {
  display_name : option string;
  real_name : option string;
}.

Record NameUser : Type := {
  profile : option NameProfile;
}.

Record NameResponse : Type := {
  user : option NameUser;
}.

(** [self._client], by what its [users_info] answers. *)
Record NameClient : Type := {
  users_info : string -> result NameResponse;
}.

(** [self._id_to_name_map] and the requests sent. *)
Abbreviation names := (SlackSdk.world (gmap string string)).

(** [try: body  except Exception: handler] *)
Definition try_except {S A} (body : M S A) (handler : exn -> M S A) : M S A :=
  fun s =>
    match body s with
    | (Raise e, s') => handler e s'
    | finished => finished
    end.

(** [response["user"]["profile"]["display_name"] or
     response["user"]["profile"]["real_name"]]: indexing the response gives
    [None] for a missing ["user"], which cannot be indexed; the other
    missing keys are [KeyError]s. *)
Definition name_of_response (response : NameResponse) : result string :=
  match user response with
  | None => Raise TypeError
  | Some u =>
      match profile u with
      | None => Raise (KeyError "profile")
      | Some p =>
          match display_name p with
          | None => Raise (KeyError "display_name")
          | Some shown =>
              if truthy (Some shown) then Return shown
              else match real_name p with
                   | None => Raise (KeyError "real_name")
                   | Some real => Return real
                   end
          end
      end
  end.

(** [_get_slack_name]: the handler of [SlackApiError] logs and raises the
    error again, so every exception of the body leaves the method. *)
Definition _get_slack_name (client : NameClient) (user_id : string) : M names string :=
  (w <- get ;;
   (match SlackSdk.cache w !! user_id with
    | None =>
        response <- (SlackSdk.log (SlackSdk.CallUsersInfo user_id) ;;;
                     lift (users_info client user_id)) ;;
        name <- lift (name_of_response response) ;;
        SlackSdk.update_cache (insert user_id name)
    | Some _ => ret tt
    end) ;;;
   w <- get ;;
   match SlackSdk.cache w !! user_id with
   | Some name => ret name
   | None => raise (KeyError user_id)
   end)%py.

(** The loop [for user_id in user_ids] of [_replace_user_ids_with_names]. *)
Fixpoint replace_names (client : NameClient) (user_ids : list string) (message : string)
    : M names string :=
  match user_ids with
  | [] => ret message
  | user_id :: rest =>
      (message <-
         try_except
           (w <- get ;;
            user_name <- match SlackSdk.cache w !! user_id with
                         | Some name => ret name
                         | None => _get_slack_name client user_id
                         end ;;
            ret (replace ("<@" +:+ user_id +:+ ">") ("@" +:+ user_name) message))
           (fun _ => ret message) ;;
       replace_names client rest message)%py
  end.

Definition _replace_user_ids_with_names (client : NameClient) (message : string)
    : M names string :=
  let user_ids := findall_tags message in
  replace_names client user_ids message.

End SlackTextCleaner.

(** ** Vocabulary for the statements about text *)

Module Text.

(** [sub] occurs in [s] as a piece of it. *)
Definition occurs (sub s : string) : Prop :=
  exists before after, s = before +:+ sub +:+ after.

(** The text without the characters for which [drop] holds. *)
Fixpoint without (drop : ascii -> bool) (s : string) : string :=
  match s with
  | EmptyString => EmptyString
  | String c s' => if drop c then without drop s' else String c (without drop s')
  end.

(** [c] is a character of [s]. *)
Fixpoint has_char (c : ascii) (s : string) : bool :=
  match s with
  | EmptyString => false
  | String x s' => Ascii.eqb x c || has_char c s'
  end.

Definition is_angle (c : ascii) : bool :=
  Ascii.eqb c "<"%char || Ascii.eqb c ">"%char.

Definition is_nul (c : ascii) : bool := Ascii.eqb c "000"%char.

Definition is_dot (c : ascii) : bool := Ascii.eqb c "."%char.

Definition is_slash (c : ascii) : bool := Ascii.eqb c "/"%char.

(** [c] is one of the three bytes of the zero width space. *)
Definition is_zero_width_byte (c : ascii) : bool :=
  Ascii.eqb c "226"%char || Ascii.eqb c "128"%char || Ascii.eqb c "139"%char.

End Text.

(** ** Vocabulary for the statements about name lookups *)

Module NameLookup.
Import SlackTextCleaner.

(** The name a lookup finds for a user id, or the exception it ends with. *)
Definition looked_up_name (client : NameClient) (user_id : string) : result string :=
  match users_info client user_id with
  | Return response => name_of_response response
  | Raise e => Raise e
  | OutOfFuel => OutOfFuel
  end.

(** The lookups of a run so far: a user id whose lookup gives a name was
    requested at most once, and once requested the map holds that name. *)
Definition names_consistent (client : NameClient) (w : names) : Prop :=
  forall user_id name,
    looked_up_name client user_id = Return name ->
    Resolution.users_info_count user_id (SlackSdk.calls w) = 0
    \/ (Resolution.users_info_count user_id (SlackSdk.calls w) = 1
        /\ SlackSdk.cache w !! user_id = Some name).

(** A client for the examples: it knows one user, who shows no display
    name, and raises for everybody else. *)
Definition one_user_client : NameClient :=
  {| users_info := fun user_id =>
       if String.eqb user_id "U1" then
         Return {| user := Some {| profile :=
                     Some {| display_name := Some ""; real_name := Some "Ann" |} |} |}
       else Raise SlackApiError |}.

End NameLookup.

(** ** [ChatFolder] of [onyx.db.models] *)

Module ChatFolder.

(** The columns [__lt__] reads: the primary key [id] and the nullable
    [display_priority]. *)
Record t : Type := {
  id : Z;
  display_priority : option Z;
}.

(** [self.display_priority == other.display_priority] *)
Definition same_priority (a b : option Z) : bool :=
  match a, b with
  | Some x, Some y => (x =? y)%Z
  | None, None => true
  | _, _ => false
  end.

(** [__lt__] against another [ChatFolder] (for anything else it answers
    [NotImplemented]). Comparing [None] with a number by [<] is a
    [TypeError]. *)
Definition __lt__ (self other : t) : result bool :=
  if same_priority (display_priority self) (display_priority other) then
    Return (id self >? id other)%Z
  else
    match display_priority self, display_priority other with
    | Some x, Some y => Return (x <? y)%Z
    | _, _ => Raise TypeError
    end.

End ChatFolder.

(** ** [get_message_link] of [onyx.connectors.slack.utils] *)

Module SlackMessageLink.
Import PyStr.

(** The keys of a message event that are read: [event["ts"]] and
    [event.get("thread_ts")]. *)
Record MessageType : Type := {
  ts : option string;
  thread_ts : option string;
}.

(** [base_url] is what [get_base_url(client.token)] answers. *)
Definition get_message_link (event : MessageType) (base_url : string)
    (channel_id : string) : result string :=
  match ts event with
  | None => Raise (KeyError "ts")
  | Some message_ts =>
      let message_ts_without_dot := replace "." "" message_ts in
      Return (rstrip "/" base_url +:+ "/archives/" +:+ channel_id +:+ "/p"
              +:+ message_ts_without_dot
              +:+ (if truthy (thread_ts event)
                   then "?thread_ts=" +:+ default "" (thread_ts event)
                   else ""))
  end.

End SlackMessageLink.

(** ** [SubQuestionIdentifier.make_dict_by_level] of [onyx.chat.models] *)

Module ChatModels.

Record SubQuestionIdentifier : Type := {
  level : option Z;
  level_question_num : option Z;
}.

(** [sorted(items, key=...)] by the order [lt] of the keys: a stable sort,
    written as the insertion sort that puts each item before the first item
    that is not smaller. Any stable sort gives the same list. *)
Fixpoint insert_sorted {A} (lt : A -> A -> bool) (x : A) (l : list A) : list A :=
  match l with
  | [] => [x]
  | y :: l' => if lt y x then y :: insert_sorted lt x l' else x :: l
  end.

Definition sorted {A} (lt : A -> A -> bool) (l : list A) : list A :=
  fold_right (insert_sorted lt) [] l.

(** The order of the keys [(x.level_question_num is None, x.level_question_num)]:
    numbers ascending, then the objects without a number. *)
Definition question_num_lt (a b : SubQuestionIdentifier) : bool :=
  match level_question_num a, level_question_num b with
  | Some x, Some y => (x <? y)%Z
  | Some _, None => true
  | None, _ => false
  end.

(** [level_dict[level].append(obj)], with a new list for a new level; a
    dictionary keeps its keys in the order they were first set. *)
Fixpoint append_at (level : Z) (obj : SubQuestionIdentifier)
    (level_dict : list (Z * list SubQuestionIdentifier))
    : list (Z * list SubQuestionIdentifier) :=
  match level_dict with
  | [] => [(level, [obj])]
  | (l, objs) :: rest =>
      if (l =? level)%Z then (l, objs ++ [obj]) :: rest
      else (l, objs) :: append_at level obj rest
  end.

(** [original_dict] is given by its items in iteration order. The levels of
    [level_dict] are distinct, so sorting its items compares levels only. *)
Definition make_dict_by_level
    (original_dict : list ((Z * Z) * SubQuestionIdentifier))
    : list (Z * list SubQuestionIdentifier) :=
  let level_dict :=
    fold_left (fun level_dict item => append_at (fst (fst item)) (snd item) level_dict)
              original_dict [] in
  let level_dict :=
    map (fun item => (fst item, sorted question_num_lt (snd item))) level_dict in
  sorted (fun a b => (fst a <? fst b)%Z) level_dict.

End ChatModels.

(** ** Vocabulary for the statements about these three *)

Module Ordering.

(** The objects filed under a level, in the iteration order of the
    dictionary. *)
Definition values_at (l : Z) (original_dict : list ((Z * Z) * ChatModels.SubQuestionIdentifier))
    : list ChatModels.SubQuestionIdentifier :=
  map snd (filter (fun item => fst (fst item) = l) original_dict).

(** [a] may stand before [b] in a list sorted by [lt]. *)
Definition not_after {A} (lt : A -> A -> bool) (a b : A) : Prop := lt b a = false.

(** The order of a sorted group: numbers ascending, objects without a
    number last. *)
Definition question_num_le (a b : ChatModels.SubQuestionIdentifier) : Prop :=
  match ChatModels.level_question_num a, ChatModels.level_question_num b with
  | Some x, Some y => (x <= y)%Z
  | _, None => True
  | None, Some _ => False
  end.

(** A dictionary for the examples: two levels, filed out of order, one
    object without a number. *)
Definition example_dict : list ((Z * Z) * ChatModels.SubQuestionIdentifier) :=
  [ ((2, 1), {| ChatModels.level := Some 2; ChatModels.level_question_num := Some 1 |});
    ((1, 2), {| ChatModels.level := Some 1; ChatModels.level_question_num := None |});
    ((1, 1), {| ChatModels.level := Some 1; ChatModels.level_question_num := Some 3 |});
    ((2, 0), {| ChatModels.level := Some 2; ChatModels.level_question_num := Some 0 |}) ]%Z.

End Ordering.

(** * Properties *)

(** ** Batch coordination *)

Section IndexAttemptProperties.
Import Models.

(** C2. [is_coordination_complete] is true exactly when [total_batches] is
    set and [completed_batches] has reached it; with [total_batches] unset
    it is false. *)
Theorem is_coordination_complete_iff (attempt : IndexAttempt) :
  (is_coordination_complete attempt = true <->
   exists total : Z,
     total_batches attempt = Some total /\ (completed_batches attempt >= total)%Z)
  /\ (total_batches attempt = None -> is_coordination_complete attempt = false).
Proof.
  unfold is_coordination_complete.
  destruct (total_batches attempt) as [total|]; split.
  - rewrite Z.geb_le. split.
    + intros Hle. exists total. split; [reflexivity | lia].
    + intros (t & [= <-] & Hge). lia.
  - discriminate.
  - split; [discriminate | intros (t & Hnone & _); discriminate].
  - reflexivity.
Qed.

Lemma is_coordination_complete_iff_witness :
  (is_coordination_complete {| total_batches := Some 3%Z; completed_batches := 3 |} = true)
  /\ (is_coordination_complete {| total_batches := None; completed_batches := 7 |} = false).
Proof.
  split.
  - apply (proj1 (is_coordination_complete_iff _)).
    exists 3%Z. simpl. split; [reflexivity | lia].
  - apply (proj2 (is_coordination_complete_iff _)). reflexivity.
Defined.

End IndexAttemptProperties.

(** ** The mock connector *)

Section MockConnectorProperties.
Import MockConnector.

(** C8. The dummy checkpoint asks for more and carries no cursor. *)
Theorem build_dummy_checkpoint_initial :
  has_more build_dummy_checkpoint = true
  /\ last_document_id build_dummy_checkpoint = None.
Proof. split; reflexivity. Qed.

(** Every way a call can end: it raises before it yields anything, or it
    yields the current batch and returns its checkpoint. *)
Lemma load_from_checkpoint_common_cases self server cp include_permissions :
  let r := _load_from_checkpoint_common self server cp include_permissions in
  (exists e, outcome r = Raise e /\ yielded r = []
             /\ (trace r = [] \/ trace r = [Saved cp]))
  \/ (exists ys y,
        connector_yields self = Some ys
        /\ ys !! current_yield_index self = Some y
        /\ add_checkpoint_ok server = true
        /\ truthy (unhandled_exception y) = false
        /\ outcome r = Return (checkpoint y)
        /\ trace r =
             Saved cp
             :: map (fun d => Yielded (inl d))
                    (map (with_mock_permissions include_permissions) (documents y))
             ++ map (fun f => Yielded (inr f)) (failures y)).
Proof.
  unfold _load_from_checkpoint_common, _save_checkpoint, yielded.
  destruct (connector_yields self) as [ys|] eqn:Hys; [|left; eauto].
  destruct (add_checkpoint_ok server) eqn:Hok; [|left; eauto].
  destruct (ys !! current_yield_index self) as [y|] eqn:Hy; [|left; eauto].
  destruct (truthy (unhandled_exception y)) eqn:Hexn; [left; eauto|].
  right. exists ys, y. simpl. auto 10.
Qed.

Lemma omap_yielded_items (items : list (Document + ConnectorFailure)) :
  omap yielded_of (map Yielded items) = items.
Proof. induction items as [|x xs IH]; [reflexivity | cbn; by f_equal]. Qed.

Lemma batch_trace_yielded cp (docs : list Document) (fails : list ConnectorFailure) :
  omap yielded_of
       (Saved cp :: map (fun d => Yielded (inl d)) docs
                 ++ map (fun f => Yielded (inr f)) fails)
  = map inl docs ++ map inr fails.
Proof.
  simpl. rewrite omap_app.
  rewrite <- (omap_yielded_items (map inl docs)), <- (omap_yielded_items (map inr fails)).
  by rewrite !map_map.
Qed.

Lemma with_mock_permissions_off (docs : list Document) :
  map (with_mock_permissions false) docs = docs.
Proof. induction docs as [|d ds IH]; simpl; [reflexivity | by rewrite IH]. Qed.

(** C5. A call of [load_from_checkpoint] on a configured connector (the
    server accepts the checkpoint, the current yield exists and simulates no
    unhandled exception) yields the documents of the current yield, then its
    failures, a finite sequence, and returns the yield's checkpoint, which
    carries [has_more]. *)
Theorem load_from_checkpoint_one_batch self server cp ys y :
  connector_yields self = Some ys ->
  ys !! current_yield_index self = Some y ->
  add_checkpoint_ok server = true ->
  truthy (unhandled_exception y) = false ->
  let r := load_from_checkpoint self server cp in
  yielded r = map inl (documents y) ++ map inr (failures y)
  /\ length (yielded r) = length (documents y) + length (failures y)
  /\ outcome r = Return (checkpoint y)
  /\ current_yield_index (connector_after r) = current_yield_index self + 1.
Proof.
  intros Hys Hy Hok Hexn. unfold load_from_checkpoint.
  unfold _load_from_checkpoint_common, _save_checkpoint, yielded.
  rewrite Hys, Hok, Hy, Hexn. cbn [trace outcome connector_after current_yield_index].
  rewrite batch_trace_yielded, with_mock_permissions_off.
  repeat split. by rewrite length_app, !length_map.
Qed.

Lemma load_from_checkpoint_one_batch_witness :
  let r := load_from_checkpoint Examples.loaded_connector Examples.server
             build_dummy_checkpoint in
  yielded r = [inl Examples.doc_without_access; inl Examples.doc_with_access;
               inr Examples.a_failure]
  /\ length (yielded r) = 3
  /\ outcome r = Return Examples.next_checkpoint
  /\ current_yield_index (connector_after r) = 1.
Proof.
  apply (load_from_checkpoint_one_batch Examples.loaded_connector Examples.server
           build_dummy_checkpoint [Examples.one_yield] Examples.one_yield);
    reflexivity.
Defined.

(** C4. In every call of [_load_from_checkpoint_common] (with or without
    permission sync), whatever is yielded comes after the checkpoint passed
    in was stored: the first event is [Saved checkpoint], no event before a
    yielded item is missing it, and the server then holds the checkpoint as
    its newest one. *)
Theorem checkpoint_saved_before_items self server cp include_permissions before item after :
  trace (_load_from_checkpoint_common self server cp include_permissions)
  = before ++ Yielded item :: after ->
  head before = Some (Saved cp)
  /\ stored_checkpoints
       (server_after (_load_from_checkpoint_common self server cp include_permissions))
     = stored_checkpoints server ++ [cp].
Proof.
  intros Htrace.
  destruct (load_from_checkpoint_common_cases self server cp include_permissions)
    as [(e & _ & _ & [Hnil | Hone]) | (ys & y & Hys & Hy & Hok & Hexn & _ & Hbatch)].
  - rewrite Hnil in Htrace. by destruct before.
  - rewrite Hone in Htrace. destruct before as [|b [|b' bs]]; discriminate.
  - split.
    + rewrite Hbatch in Htrace. destruct before as [|b bs]; [discriminate|].
      by injection Htrace as -> _.
    + unfold _load_from_checkpoint_common, _save_checkpoint.
      by rewrite Hys, Hok, Hy, Hexn.
Qed.

Lemma checkpoint_saved_before_items_witness :
  head [Saved build_dummy_checkpoint] = Some (Saved build_dummy_checkpoint)
  /\ stored_checkpoints
       (server_after (_load_from_checkpoint_common Examples.loaded_connector
                        Examples.server build_dummy_checkpoint true))
     = stored_checkpoints Examples.server ++ [build_dummy_checkpoint].
Proof.
  apply (checkpoint_saved_before_items Examples.loaded_connector Examples.server
           build_dummy_checkpoint true [Saved build_dummy_checkpoint]
           (inl (with_mock_permissions true Examples.doc_without_access))
           [Yielded (inl Examples.doc_with_access); Yielded (inr Examples.a_failure)]).
  reflexivity.
Defined.

(** A document leaves the permission-sync loop with an access. *)
Lemma with_mock_permissions_on (d : Document) :
  external_access (with_mock_permissions true d)
  = Some (default Examples.mock_access (external_access d)).
Proof.
  unfold with_mock_permissions.
  destruct (external_access d) eqn:Haccess; simpl; [exact Haccess | reflexivity].
Qed.


End MockConnectorProperties.

(** ** Listing document access in the Slack doc sync *)

Section DocumentAccessProperties.
Import SlackDocSync.



End DocumentAccessProperties.

(** ** The permission contract on documents without access *)

Section PermissionContract.
Import MockConnector.




End PermissionContract.

(** ** The store monad *)

Section MonadLaws.
Context {S A B : Type}.

Lemma bind_Return (m : M S A) (k : A -> M S B) s b s' :
  bind m k s = (Return b, s') ->
  exists a s1, m s = (Return a, s1) /\ k a s1 = (Return b, s').
Proof.
  unfold bind. destruct (m s) as [[a|e|] s1]; intros Heq; try discriminate. eauto.
Qed.

(** A computation that did not run out of fuel, followed by another. *)
Lemma bind_finished (m : M S A) (k : A -> M S B) s r s' :
  bind m k s = (r, s') ->
  r <> OutOfFuel ->
  (exists a s1, m s = (Return a, s1) /\ k a s1 = (r, s'))
  \/ (exists e, m s = (Raise e, s') /\ r = Raise e).
Proof.
  unfold bind. destruct (m s) as [[a|e|] s1]; intros Heq Hfuel.
  - left. eauto.
  - right. injection Heq as <- <-. eauto.
  - injection Heq as <- _. contradiction.
Qed.

End MonadLaws.

(** ** Expert lookup with a cache *)

Section ExpertInfoProperties.
Import SlackSdk SlackUtils.

Implicit Types w : world (gmap string (option BasicExpertInfo)).

(** C10. [expert_info_from_slack_id] returns [None] and sends nothing when
    [user_id] is [None] or empty; returns the cached value, possibly [None],
    and sends nothing when [user_id] is a key of [user_cache]; otherwise
    sends one [users_info] request and, when that answers, stores the
    result ([None] if the response is not ok) under [user_id] and returns
    it. *)
Theorem expert_info_from_slack_id_cases client w :
  (forall user_id,
      truthy user_id = false ->
      expert_info_from_slack_id user_id client w = (Return None, w))
  /\ (forall user_id cached,
        truthy (Some user_id) = true ->
        cache w !! user_id = Some cached ->
        expert_info_from_slack_id (Some user_id) client w = (Return cached, w))
  /\ (forall user_id response,
        truthy (Some user_id) = true ->
        cache w !! user_id = None ->
        users_info client user_id = Return response ->
        let found :=
          if ok response then Some (expert_of_response response) else None in
        expert_info_from_slack_id (Some user_id) client w
        = (Return found,
           {| cache := <[user_id := found]> (cache w);
              calls := calls w ++ [CallUsersInfo user_id] |})).
Proof.
  unfold expert_info_from_slack_id. repeat split.
  - intros user_id ->. reflexivity.
  - intros user_id cached -> Hcached. cbn [negb default].
    unfold bind, get. simpl. rewrite Hcached. reflexivity.
  - intros user_id response -> Hnew Hinfo. cbn [negb default].
    unfold bind, get, call_users_info, log, modify, lift, update_cache, bind, ret.
    simpl. rewrite Hnew. cbn. rewrite Hinfo.
    destruct (ok response); reflexivity.
Qed.

Lemma expert_info_from_slack_id_cases_witness :
  expert_info_from_slack_id (Some "") SlackExamples.client
    {| cache := ∅; calls := [] |}
  = (Return None, {| cache := ∅; calls := [] |})
  /\ expert_info_from_slack_id (Some "U-gone") SlackExamples.client
       {| cache := {[ "U-gone" := None ]}; calls := [] |}
     = (Return None, {| cache := {[ "U-gone" := None ]}; calls := [] |})
  /\ expert_info_from_slack_id (Some "U-gone") SlackExamples.client
       {| cache := ∅; calls := [] |}
     = (Return None,
        {| cache := <["U-gone" := None]> ∅; calls := [] ++ [CallUsersInfo "U-gone"] |}).
Proof.
  split; [|split].
  - apply (proj1 (expert_info_from_slack_id_cases SlackExamples.client
                    {| cache := ∅; calls := [] |})).
    reflexivity.
  - apply (proj1 (proj2 (expert_info_from_slack_id_cases SlackExamples.client
                           {| cache := {[ "U-gone" := None ]}; calls := [] |}))).
    + reflexivity.
    + apply lookup_singleton_eq.
  - apply (proj2 (proj2 (expert_info_from_slack_id_cases SlackExamples.client
                           {| cache := ∅; calls := [] |}))
             "U-gone" {| ok := false; user := None |}).
    + reflexivity.
    + apply lookup_empty.
    + reflexivity.
Defined.

(** A lookup that raises leaves the cache as it was. *)
Lemma expert_info_from_slack_id_raises client w user_id e :
  truthy (Some user_id) = true ->
  cache w !! user_id = None ->
  users_info client user_id = Raise e ->
  expert_info_from_slack_id (Some user_id) client w
  = (Raise e, {| cache := cache w; calls := calls w ++ [CallUsersInfo user_id] |}).
Proof.
  unfold expert_info_from_slack_id. intros -> Hnew Hinfo. cbn [negb default].
  unfold bind, get, call_users_info, log, modify, lift, bind. simpl.
  rewrite Hnew. cbn. rewrite Hinfo. reflexivity.
Qed.

End ExpertInfoProperties.

(** ** The Slack doc sync *)

Section SlackDocSyncProperties.
Import SlackSdk SlackUtils SlackDocSync.

(** C9. With an empty user-id-to-email map [slack_doc_sync] raises
    [ValueError] right after fetching the map: no other request is sent, no
    permissions are computed and nothing is yielded. *)
Theorem slack_doc_sync_empty_map fuel env slack_client callback :
  fetch_user_id_to_email_map env = Return ∅ ->
  let r := slack_doc_sync fuel env slack_client callback in
  (exists msg, sync_outcome r = Raise (ValueError msg))
  /\ sync_yielded r = []
  /\ sync_calls r = [CallFetchUserIdToEmailMap]
  /\ sync_permissions r = None.
Proof.
  intros Hempty. unfold slack_doc_sync. rewrite Hempty.
  rewrite decide_True by reflexivity. simpl. eauto.
Qed.

Lemma slack_doc_sync_empty_map_witness :
  let r := slack_doc_sync 8 SlackExamples.workspace_without_emails
             SlackExamples.client None in
  (exists msg, sync_outcome r = Raise (ValueError msg))
  /\ sync_yielded r = []
  /\ sync_calls r = [CallFetchUserIdToEmailMap]
  /\ sync_permissions r = None.
Proof.
  apply (slack_doc_sync_empty_map 8 SlackExamples.workspace_without_emails
           SlackExamples.client None).
  reflexivity.
Defined.

Lemma public_channels_loop_lookup workspace_permissions ids
    (channel_permissions : gmap string ExternalAccess) channel :
  public_channels_loop workspace_permissions ids channel_permissions !! channel
  = if decide (channel ∈ ids) then Some workspace_permissions
    else channel_permissions !! channel.
Proof.
  unfold public_channels_loop.
  revert channel_permissions. induction ids as [|i ids IH]; intros acc; cbn [foldl].
  - destruct (decide (channel ∈ [])) as [Hin | _]; [|reflexivity].
    by apply elem_of_nil in Hin.
  - rewrite IH. destruct (decide (channel ∈ ids)) as [Hin | Hout].
    + rewrite decide_True by (apply elem_of_cons; auto). reflexivity.
    + destruct (decide (channel = i)) as [-> | Hne].
      * rewrite decide_True by (apply elem_of_cons; auto). apply lookup_insert_eq.
      * rewrite decide_False; [by apply lookup_insert_ne|].
        intros [Heq | Hin]%elem_of_cons; contradiction.
Qed.

(** What the loop over the private channels leaves in the dictionary: its own
    entries, which are never public and carry no group, and the entries of the
    other channels untouched. *)
Lemma private_channels_loop_entries fuel slack_client ids
    (channel_permissions result : gmap string ExternalAccess) w w' :
  private_channels_loop fuel slack_client ids channel_permissions w = (Return result, w') ->
  forall channel,
    (channel ∉ ids -> result !! channel = channel_permissions !! channel)
    /\ (channel ∈ ids ->
        exists emails,
          result !! channel
          = Some {| external_user_emails := emails;
                    external_user_group_ids := ∅;
                    is_public := false |}).
Proof.
  revert channel_permissions w. induction ids as [|i ids IH]; intros acc w Hrun channel.
  - injection Hrun as <- _. split; [reflexivity | intros Hin; by apply elem_of_nil in Hin].
  - simpl in Hrun.
    apply bind_Return in Hrun as (member_ids & w1 & _ & Hrun).
    apply bind_Return in Hrun as (member_emails & w2 & _ & Hrun).
    destruct (IH _ _ Hrun channel) as [Hother Hmine]. split.
    + intros Hout. apply not_elem_of_cons in Hout as [Hne Hout].
      rewrite (Hother Hout). by apply lookup_insert_ne.
    + intros Hin. destruct (decide (channel ∈ ids)) as [Hrest | Hrest]; [by apply Hmine|].
      apply elem_of_cons in Hin as [-> | Hin]; [|contradiction].
      rewrite (Hother Hrest), lookup_insert_eq. eauto.
Qed.

Lemma fetch_channel_permissions_entries fuel env slack_client workspace_permissions
    (result : gmap string ExternalAccess) w w' :
  _fetch_channel_permissions fuel env slack_client workspace_permissions w
  = (Return result, w') ->
  exists public_channels private_channels,
    get_channels env true false = Return public_channels
    /\ get_channels env false true = Return private_channels
    /\ forall channel,
        (channel ∈ channel_ids private_channels ->
         exists emails,
           result !! channel
           = Some {| external_user_emails := emails;
                     external_user_group_ids := ∅;
                     is_public := false |})
        /\ (channel ∉ channel_ids private_channels ->
            result !! channel
            = if decide (channel ∈ channel_ids public_channels)
              then Some workspace_permissions else None).
Proof.
  unfold _fetch_channel_permissions, call_get_channels. intros Hrun.
  apply bind_Return in Hrun as (public_channels & w1 & Hpublic & Hrun).
  apply bind_Return in Hrun as (private_channels & w2 & Hprivate & Hrun).
  unfold bind, log, modify, lift in Hpublic, Hprivate. simpl in Hpublic, Hprivate.
  injection Hpublic as Hpublic _. injection Hprivate as Hprivate _.
  exists public_channels, private_channels. split; [assumption | split; [assumption|]].
  intros channel.
  destruct (private_channels_loop_entries _ _ _ _ _ _ _ Hrun channel) as [Hother Hmine].
  split; [exact Hmine|].
  intros Hout. rewrite (Hother Hout), public_channels_loop_lookup.
  destruct (decide _); [reflexivity | apply lookup_empty].
Qed.

(** C3. The workspace record and every channel record [slack_doc_sync]
    computes have [is_public = False]; a public channel (one that is not
    also listed as private) gets the workspace record itself. *)
Theorem slack_permissions_never_public fuel env slack_client callback
    workspace_permissions (channel_permissions : gmap string ExternalAccess) :
  sync_permissions (slack_doc_sync fuel env slack_client callback)
  = Some (workspace_permissions, channel_permissions) ->
  is_public workspace_permissions = false
  /\ (forall channel access,
        channel_permissions !! channel = Some access -> is_public access = false)
  /\ (forall public_channels private_channels channel,
        get_channels env true false = Return public_channels ->
        get_channels env false true = Return private_channels ->
        channel ∈ channel_ids public_channels ->
        channel ∉ channel_ids private_channels ->
        channel_permissions !! channel = Some workspace_permissions).
Proof.
  unfold slack_doc_sync.
  destruct (fetch_user_id_to_email_map env) as [m| |]; try discriminate.
  destruct (decide (m = ∅)); [discriminate|].
  destruct (_fetch_channel_permissions _ _ _ _ _) as [[cp| |] w] eqn:Hrun; try discriminate.
  intros [= <- <-].
  apply fetch_channel_permissions_entries in Hrun
    as (pubs & privs & Hpubs & Hprivs & Hentries).
  split; [reflexivity | split].
  - intros channel access Hlookup.
    destruct (Hentries channel) as [Hmine Hother].
    destruct (decide (channel ∈ channel_ids privs)) as [Hin | Hout].
    + destruct (Hmine Hin) as (emails & Heq). rewrite Heq in Hlookup.
      by injection Hlookup as <-.
    + rewrite (Hother Hout) in Hlookup. destruct (decide _); [|discriminate].
      by injection Hlookup as <-.
  - intros pubs' privs' channel Hpubs' Hprivs' Hin Hout.
    rewrite Hpubs in Hpubs'. rewrite Hprivs in Hprivs'.
    injection Hpubs' as <-. injection Hprivs' as <-.
    destruct (Hentries channel) as [_ Hother].
    rewrite (Hother Hout). by rewrite decide_True.
Qed.

Lemma slack_permissions_never_public_witness :
  let workspace_permissions := _fetch_workspace_permissions SlackExamples.listed_users in
  exists channel_permissions : gmap string ExternalAccess,
    sync_permissions SlackExamples.example_run
    = Some (workspace_permissions, channel_permissions)
    /\ is_public workspace_permissions = false
    /\ (forall channel access,
          channel_permissions !! channel = Some access -> is_public access = false)
    /\ channel_permissions !! "C-pub" = Some workspace_permissions.
Proof.
  set (cp := default ∅ (snd <$> sync_permissions SlackExamples.example_run)).
  assert (Hrun : sync_permissions SlackExamples.example_run
                 = Some (_fetch_workspace_permissions SlackExamples.listed_users, cp))
    by (vm_compute; reflexivity).
  exists cp. split; [exact Hrun|].
  destruct (slack_permissions_never_public _ _ _ _ _ _ Hrun) as (Hws & Hall & Hpublic).
  split; [exact Hws | split; [exact Hall|]].
  apply (Hpublic [ {| channel_id := Some "C-pub" |}; {| channel_id := None |} ]
                 [ {| channel_id := Some "C-priv-1" |}; {| channel_id := Some "C-priv-2" |} ]).
  - reflexivity.
  - reflexivity.
  - apply list_elem_of_here.
  - intros Hin. cbn in Hin.
    repeat (apply elem_of_cons in Hin as [Hin | Hin]; [discriminate|]).
    by apply elem_of_nil in Hin.
Defined.

End SlackDocSyncProperties.

(** ** Resolving the members of private channels *)

Section MemberResolution.
Import SlackSdk SlackUtils SlackDocSync Resolution.

Variable slack_client : WebClient.
Variable fetched : gmap string string.

Implicit Types w : world (gmap string string).
Implicit Types sent : list api_call.

Lemma users_info_count_app member_id sent sent' :
  users_info_count member_id (sent ++ sent')
  = users_info_count member_id sent + users_info_count member_id sent'.
Proof. unfold users_info_count. by rewrite List.filter_app, length_app. Qed.

Lemma users_info_count_same member_id :
  users_info_count member_id [CallUsersInfo member_id] = 1.
Proof. unfold users_info_count. simpl. by rewrite String.eqb_refl. Qed.

Lemma users_info_count_other member_id other :
  member_id <> other -> users_info_count member_id [CallUsersInfo other] = 0.
Proof.
  intros Hne. unfold users_info_count. simpl.
  by apply String.eqb_neq in Hne as ->.
Qed.

Lemma looked_up_email_truthy member_id address :
  looked_up_email slack_client member_id = Some address ->
  truthy (Some address) = true.
Proof.
  unfold looked_up_email.
  destruct (users_info slack_client member_id) as [info| |]; try discriminate.
  destruct (email_of_member_info info) as [member_email| |]; try discriminate.
  destruct (truthy member_email) eqn:Htruthy; [|discriminate].
  by intros ->.
Qed.

Lemma truthy_default (value : option string) :
  truthy value = true -> value = Some (default "" value).
Proof. by destruct value. Qed.

(** The paginated call only adds [conversations.members] requests. *)
Lemma paginated_call_member_pages fuel channel cursor w :
  exists sent,
    paginated_call fuel (call_conversations_members slack_client channel) cursor w
    = (member_pages fuel slack_client channel cursor,
       {| cache := cache w; calls := calls w ++ sent |})
    /\ forall member_id, users_info_count member_id sent = 0.
Proof.
  revert cursor w. induction fuel as [|fuel IH]; intros cursor w.
  - exists []. destruct w. simpl. unfold lift. by rewrite app_nil_r.
  - cbn [paginated_call member_pages].
    unfold call_conversations_members at 1.
    unfold bind at 1 2, log, modify, lift. cbn [cache calls].
    destruct (conversations_members slack_client channel cursor _SLACK_LIMIT)
      as [response| |].
    + destruct (truthy (Some (next_cursor response))).
      * destruct (IH (Some (next_cursor response))
                    {| cache := cache w;
                       calls := calls w ++
                                [CallConversationsMembers channel cursor _SLACK_LIMIT] |})
          as (sent & Hrun & Hcount).
        exists (CallConversationsMembers channel cursor _SLACK_LIMIT :: sent).
        unfold bind. rewrite Hrun. cbn [cache calls]. rewrite <- app_assoc.
        split; [by destruct (member_pages _ _ _ _) | ].
        intros member_id. apply (Hcount member_id).
      * exists [CallConversationsMembers channel cursor _SLACK_LIMIT]. by split.
    + exists [CallConversationsMembers channel cursor _SLACK_LIMIT]. by split.
    + exists [CallConversationsMembers channel cursor _SLACK_LIMIT]. by split.
Qed.

Lemma collect_member_ids_pure fuel channel w :
  exists sent,
    collect_member_ids fuel slack_client channel w
    = (member_ids_of fuel slack_client channel,
       {| cache := cache w; calls := calls w ++ sent |})
    /\ forall member_id, users_info_count member_id sent = 0.
Proof.
  unfold collect_member_ids, make_paginated_slack_api_call, member_ids_of.
  destruct (paginated_call_member_pages fuel channel None w) as (sent & Hrun & Hcount).
  exists sent. split; [|exact Hcount].
  unfold bind. rewrite Hrun. by destruct (member_pages _ _ _ _).
Qed.

(** Requests other than [users_info] keep a run consistent. *)
Lemma consistent_sent w sent :
  (forall member_id, users_info_count member_id sent = 0) ->
  consistent slack_client fetched w ->
  consistent slack_client fetched {| cache := cache w; calls := calls w ++ sent |}.
Proof.
  intros Hsent Hw member_id. unfold member_state. cbn [cache calls].
  rewrite users_info_count_app, Hsent, Nat.add_0_r. apply Hw.
Qed.

Lemma consistent_initial sent :
  (forall member_id, users_info_count member_id sent = 0) ->
  consistent slack_client fetched {| cache := fetched; calls := sent |}.
Proof. intros Hsent member_id. left. cbn [cache calls]. auto. Qed.

(** What a consistent run knows about a member. *)
Lemma consistent_cached w member_id :
  consistent slack_client fetched w ->
  truthy (cache w !! member_id) = true ->
  resolve slack_client fetched member_id = cache w !! member_id
  /\ (truthy (fetched !! member_id) = false ->
      users_info_count member_id (calls w) = 1).
Proof.
  intros Hw Hcached. unfold resolve.
  destruct (Hw member_id) as [[Hsame _] | (Hfalsy & _ & Hfound & Hcount)].
  - rewrite <- Hsame, Hcached. split; [reflexivity | discriminate].
  - rewrite Hfalsy. auto.
Qed.

Lemma consistent_uncached w member_id :
  consistent slack_client fetched w ->
  truthy (cache w !! member_id) = false ->
  cache w !! member_id = fetched !! member_id
  /\ resolve slack_client fetched member_id = looked_up_email slack_client member_id
  /\ (users_info_count member_id (calls w) = 0
      \/ looked_up_email slack_client member_id = None).
Proof.
  intros Hw Huncached. unfold resolve.
  destruct (Hw member_id) as [[Hsame Hcount] | (_ & Hcached & _)]; [|congruence].
  rewrite <- Hsame, Huncached. auto.
Qed.

(** A lookup that finds no email changes nothing but the requests sent. *)
Lemma consistent_lookup_none w member_id :
  consistent slack_client fetched w ->
  truthy (cache w !! member_id) = false ->
  looked_up_email slack_client member_id = None ->
  consistent slack_client fetched
    {| cache := cache w; calls := calls w ++ [CallUsersInfo member_id] |}.
Proof.
  intros Hw Huncached Hnone other. unfold member_state. cbn [cache calls].
  rewrite users_info_count_app.
  destruct (decide (other = member_id)) as [-> | Hne].
  - left. destruct (consistent_uncached _ _ Hw Huncached) as (Hsame & _ & _). auto.
  - rewrite (users_info_count_other _ _ Hne), Nat.add_0_r. apply Hw.
Qed.

(** A lookup that finds an email caches it. *)
Lemma consistent_lookup_some w member_id address :
  consistent slack_client fetched w ->
  truthy (cache w !! member_id) = false ->
  looked_up_email slack_client member_id = Some address ->
  consistent slack_client fetched
    {| cache := <[member_id := address]> (cache w);
       calls := calls w ++ [CallUsersInfo member_id] |}.
Proof.
  intros Hw Huncached Hsome other. unfold member_state. cbn [cache calls].
  rewrite users_info_count_app.
  destruct (decide (other = member_id)) as [-> | Hne].
  - right. destruct (consistent_uncached _ _ Hw Huncached) as (Hsame & _ & Hcount).
    rewrite lookup_insert_eq, users_info_count_same, Hsome.
    rewrite <- Hsame, Huncached.
    destruct Hcount as [-> | Hnone]; [|congruence].
    repeat split. by apply looked_up_email_truthy in Hsome.
  - rewrite (users_info_count_other _ _ Hne), Nat.add_0_r.
    rewrite lookup_insert_ne by congruence. apply Hw.
Qed.

(** One turn of the member loop. *)
Lemma collect_member_emails_cached member_id rest member_emails w :
  truthy (cache w !! member_id) = true ->
  collect_member_emails slack_client (member_id :: rest) member_emails w
  = collect_member_emails slack_client rest
      (member_emails ∪ {[ default "" (cache w !! member_id) ]}) w.
Proof.
  intros Hcached. cbn [collect_member_emails]. unfold bind at 1, get.
  by rewrite Hcached.
Qed.

Lemma collect_member_emails_uncached member_id rest member_emails w :
  truthy (cache w !! member_id) = false ->
  let w1 := {| cache := cache w; calls := calls w ++ [CallUsersInfo member_id] |} in
  collect_member_emails slack_client (member_id :: rest) member_emails w
  = match users_info slack_client member_id with
    | Return member_info =>
        match email_of_member_info member_info with
        | Return member_email =>
            if truthy member_email then
              collect_member_emails slack_client rest
                (member_emails ∪ {[ default "" member_email ]})
                {| cache := <[member_id := default "" member_email]> (cache w);
                   calls := calls w1 |}
            else collect_member_emails slack_client rest member_emails w1
        | Raise e => (Raise e, w1)
        | OutOfFuel => (OutOfFuel, w1)
        end
    | Raise e => (Raise e, w1)
    | OutOfFuel => (OutOfFuel, w1)
    end.
Proof.
  intros Huncached w1. cbn [collect_member_emails]. unfold bind at 1, get.
  rewrite Huncached. cbn [negb].
  unfold call_users_info, bind, log, modify, lift, update_cache. cbn [cache calls].
  destruct (users_info slack_client member_id) as [info| |]; try reflexivity.
  destruct (email_of_member_info info) as [member_email| |]; try reflexivity.
  destruct (truthy member_email); reflexivity.
Qed.

Lemma collect_member_emails_found member_id rest member_emails w address :
  truthy (cache w !! member_id) = false ->
  looked_up_email slack_client member_id = Some address ->
  collect_member_emails slack_client (member_id :: rest) member_emails w
  = collect_member_emails slack_client rest (member_emails ∪ {[ address ]})
      {| cache := <[member_id := address]> (cache w);
         calls := calls w ++ [CallUsersInfo member_id] |}.
Proof.
  intros Huncached Hfound.
  rewrite (collect_member_emails_uncached _ _ _ _ Huncached).
  unfold looked_up_email in Hfound.
  destruct (users_info slack_client member_id) as [info| |]; try discriminate.
  destruct (email_of_member_info info) as [member_email| |]; try discriminate.
  destruct (truthy member_email) eqn:Htruthy; [|discriminate].
  subst member_email. reflexivity.
Qed.

Lemma collect_member_emails_not_found member_id rest member_emails w :
  truthy (cache w !! member_id) = false ->
  looked_up_email slack_client member_id = None ->
  let w1 := {| cache := cache w; calls := calls w ++ [CallUsersInfo member_id] |} in
  collect_member_emails slack_client (member_id :: rest) member_emails w
  = collect_member_emails slack_client rest member_emails w1
  \/ exists r,
       is_return r = false
       /\ collect_member_emails slack_client (member_id :: rest) member_emails w = (r, w1).
Proof.
  intros Huncached Hnone w1.
  rewrite (collect_member_emails_uncached _ _ _ _ Huncached).
  unfold looked_up_email in Hnone. fold w1.
  destruct (users_info slack_client member_id) as [info| |];
    [|right; eexists; split; [|reflexivity]; reflexivity ..].
  destruct (email_of_member_info info) as [member_email| |];
    [|right; eexists; split; [|reflexivity]; reflexivity ..].
  destruct (truthy member_email) eqn:Htruthy.
  - destruct member_email; [discriminate Hnone | discriminate Htruthy].
  - left. reflexivity.
Qed.

Lemma omap_resolve_cons member_id rest :
  omap (resolve slack_client fetched) (member_id :: rest)
  = match resolve slack_client fetched member_id with
    | Some address => address :: omap (resolve slack_client fetched) rest
    | None => omap (resolve slack_client fetched) rest
    end.
Proof. reflexivity. Qed.

(** The member loop on a consistent run: it stays consistent, only adds
    requests, and when it returns, the emails it adds are those the members
    resolve to; each member the fetched map had no email for has been
    looked up by then. *)
Lemma collect_member_emails_spec member_ids :
  forall member_emails w r w',
    consistent slack_client fetched w ->
    collect_member_emails slack_client member_ids member_emails w = (r, w') ->
    consistent slack_client fetched w'
    /\ (forall member_id,
          users_info_count member_id (calls w) <= users_info_count member_id (calls w'))
    /\ (forall emails,
          r = Return emails ->
          emails
          = member_emails ∪ list_to_set (omap (resolve slack_client fetched) member_ids)
          /\ forall member_id,
              member_id ∈ member_ids ->
              truthy (fetched !! member_id) = false ->
              1 <= users_info_count member_id (calls w')).
Proof.
  induction member_ids as [|m rest IH]; intros acc w r w' Hw Hrun.
  - injection Hrun as <- <-. split; [exact Hw | split; [lia|]].
    intros emails [= <-]. split.
    + cbn. by rewrite union_empty_r_L.
    + intros member_id Hin. by apply elem_of_nil in Hin.
  - rewrite omap_resolve_cons.
    destruct (truthy (cache w !! m)) eqn:Hcached.
    + rewrite (collect_member_emails_cached _ _ _ _ Hcached) in Hrun.
      destruct (IH _ _ _ _ Hw Hrun) as (Hw' & Hmono & Hret).
      split; [exact Hw' | split; [exact Hmono|]].
      intros emails ->. destruct (Hret _ eq_refl) as [Hemails Hlooked].
      destruct (consistent_cached _ _ Hw Hcached) as [Hresolve Hcount].
      rewrite Hresolve, (truthy_default _ Hcached). split.
      * rewrite Hemails. cbn [list_to_set]. by rewrite (assoc_L (∪)).
      * intros member_id Hin Hfalsy.
        apply elem_of_cons in Hin as [-> | Hin]; [|by apply Hlooked].
        specialize (Hcount Hfalsy). specialize (Hmono m). lia.
    + destruct (looked_up_email slack_client m) as [address|] eqn:Hlookup.
      * rewrite (collect_member_emails_found _ _ _ _ _ Hcached Hlookup) in Hrun.
        pose proof (consistent_lookup_some _ _ _ Hw Hcached Hlookup) as Hw2.
        destruct (IH _ _ _ _ Hw2 Hrun) as (Hw' & Hmono & Hret).
        cbn [calls] in Hmono.
        split; [exact Hw' | split].
        -- intros member_id. specialize (Hmono member_id).
           rewrite users_info_count_app in Hmono. lia.
        -- intros emails ->. destruct (Hret _ eq_refl) as [Hemails Hlooked].
           destruct (consistent_uncached _ _ Hw Hcached) as (_ & Hresolve & _).
           rewrite Hresolve, Hlookup. split.
           ++ rewrite Hemails. cbn [list_to_set]. by rewrite (assoc_L (∪)).
           ++ intros member_id Hin Hfalsy.
              apply elem_of_cons in Hin as [-> | Hin]; [|by apply Hlooked].
              specialize (Hmono m).
              rewrite users_info_count_app, users_info_count_same in Hmono. lia.
      * pose proof (consistent_lookup_none _ _ Hw Hcached Hlookup) as Hw1.
        destruct (collect_member_emails_not_found _ rest acc _ Hcached Hlookup)
          as [Hcontinue | (r0 & Hfailed & Hstop)].
        -- rewrite Hcontinue in Hrun.
           destruct (IH _ _ _ _ Hw1 Hrun) as (Hw' & Hmono & Hret).
           cbn [calls] in Hmono.
           split; [exact Hw' | split].
           ++ intros member_id. specialize (Hmono member_id).
              rewrite users_info_count_app in Hmono. lia.
           ++ intros emails ->. destruct (Hret _ eq_refl) as [Hemails Hlooked].
              destruct (consistent_uncached _ _ Hw Hcached) as (_ & Hresolve & _).
              rewrite Hresolve, Hlookup. split; [exact Hemails|].
              intros member_id Hin Hfalsy.
              apply elem_of_cons in Hin as [-> | Hin]; [|by apply Hlooked].
              specialize (Hmono m).
              rewrite users_info_count_app, users_info_count_same in Hmono. lia.
        -- rewrite Hstop in Hrun. injection Hrun as <- <-.
           split; [exact Hw1 | split].
           ++ intros member_id. cbn [calls]. rewrite users_info_count_app. lia.
           ++ intros emails ->. discriminate Hfailed.
Qed.

Lemma private_channels_loop_spec fuel ids :
  forall (channel_permissions : gmap string ExternalAccess) w r w',
    consistent slack_client fetched w ->
    private_channels_loop fuel slack_client ids channel_permissions w = (r, w') ->
    consistent slack_client fetched w'
    /\ (forall member_id,
          users_info_count member_id (calls w) <= users_info_count member_id (calls w'))
    /\ (forall result : gmap string ExternalAccess,
          r = Return result ->
          forall channel,
            channel ∈ ids ->
            exists member_ids,
              member_ids_of fuel slack_client channel = Return member_ids
              /\ result !! channel
                 = Some {| external_user_emails :=
                             list_to_set (omap (resolve slack_client fetched) member_ids);
                           external_user_group_ids := ∅;
                           is_public := false |}
              /\ forall member_id,
                  member_id ∈ member_ids ->
                  truthy (fetched !! member_id) = false ->
                  1 <= users_info_count member_id (calls w')).
Proof.
  induction ids as [|i rest IH]; intros acc w r w' Hw Hrun.
  - injection Hrun as <- <-. split; [exact Hw | split; [lia|]].
    intros result _ channel Hin. by apply elem_of_nil in Hin.
  - pose proof Hrun as Hwhole.
    cbn [private_channels_loop] in Hrun. unfold bind at 1 in Hrun.
    destruct (collect_member_ids_pure fuel i w) as (sent & Hids & Hsent).
    rewrite Hids in Hrun.
    pose proof (consistent_sent _ _ Hsent Hw) as Hw1.
    assert (Hmono1 : forall member_id,
               users_info_count member_id (calls w)
               = users_info_count member_id (calls w ++ sent)).
    { intros member_id. rewrite users_info_count_app, Hsent. lia. }
    destruct (member_ids_of fuel slack_client i) as [member_ids| |] eqn:Hmembers.
    2,3: injection Hrun as <- <-; split; [exact Hw1 | split];
         [intros member_id; cbn [calls]; rewrite <- Hmono1; lia | discriminate].
    unfold bind at 1 in Hrun.
    destruct (collect_member_emails slack_client member_ids ∅
                {| cache := cache w; calls := calls w ++ sent |})
      as [r2 w2] eqn:Hemails.
    destruct (collect_member_emails_spec _ _ _ _ _ Hw1 Hemails)
      as (Hw2 & Hmono2 & Hret2).
    cbn [calls] in Hmono2.
    destruct r2 as [member_emails| |].
    2,3: injection Hrun as <- <-; split; [exact Hw2 | split];
         [intros member_id; rewrite Hmono1; apply Hmono2 | discriminate].
    destruct (IH _ _ _ _ Hw2 Hrun) as (Hw' & Hmono3 & Hret3).
    split; [exact Hw' | split].
    + intros member_id. rewrite Hmono1.
      etransitivity; [apply Hmono2 | apply Hmono3].
    + intros result -> channel Hin.
      destruct (decide (channel ∈ rest)) as [Hrest | Hrest];
        [by apply (Hret3 _ eq_refl)|].
      apply elem_of_cons in Hin as [-> | Hin]; [|contradiction].
      destruct (Hret2 _ eq_refl) as [Heq Hlooked].
      exists member_ids. split; [exact Hmembers | split].
      * destruct (private_channels_loop_entries _ _ _ _ _ _ _ Hrun i) as [Hother _].
        rewrite (Hother Hrest), lookup_insert_eq, Heq.
        by rewrite union_empty_l_L.
      * intros member_id Hmember Hfalsy.
        etransitivity; [by apply Hlooked | apply Hmono3].
Qed.

(** What consistency says at the end of a run. *)
Lemma consistent_summary w :
  consistent slack_client fetched w ->
  (forall member_id address,
      looked_up_email slack_client member_id = Some address ->
      users_info_count member_id (calls w) <= 1
      /\ (1 <= users_info_count member_id (calls w) ->
          cache w !! member_id = Some address))
  /\ (forall member_id,
        looked_up_email slack_client member_id = None ->
        cache w !! member_id = fetched !! member_id).
Proof.
  intros Hw. split.
  - intros member_id address Hfound.
    destruct (Hw member_id) as [[_ [Hzero | Hnone]] | (_ & _ & Hcached & Hone)].
    + rewrite Hzero. split; lia.
    + congruence.
    + rewrite Hone, Hcached. auto.
  - intros member_id Hnone.
    destruct (Hw member_id) as [[Hsame _] | (_ & Htruthy & Hcached & _)]; [exact Hsame|].
    rewrite Hcached, Hnone in Htruthy. discriminate.
Qed.

(** C7, amended. In [_fetch_channel_permissions], started from the fetched
    map with no [users_info] request sent yet:
    - whatever the outcome, a member whose lookup finds a non-empty email is
      looked up at most once, and once looked up its email is in the map;
      for a member whose lookup finds none, the map still has the fetched
      entry (nothing is cached);
    - when it returns, each private channel has the emails its members
      resolve to (the non-empty fetched email, else the looked-up one;
      members with neither are left out), no group and [is_public = False],
      and every member without a non-empty fetched email has been looked
      up. *)
Theorem private_channel_member_resolution fuel env workspace_permissions sent r w :
  (forall member_id, users_info_count member_id sent = 0) ->
  _fetch_channel_permissions fuel env slack_client workspace_permissions
    {| cache := fetched; calls := sent |} = (r, w) ->
  (forall member_id address,
      looked_up_email slack_client member_id = Some address ->
      users_info_count member_id (calls w) <= 1
      /\ (1 <= users_info_count member_id (calls w) ->
          cache w !! member_id = Some address))
  /\ (forall member_id,
        looked_up_email slack_client member_id = None ->
        cache w !! member_id = fetched !! member_id)
  /\ (forall (channel_permissions : gmap string ExternalAccess) private_channels channel,
        r = Return channel_permissions ->
        get_channels env false true = Return private_channels ->
        channel ∈ channel_ids private_channels ->
        exists member_ids,
          member_ids_of fuel slack_client channel = Return member_ids
          /\ channel_permissions !! channel
             = Some {| external_user_emails :=
                         list_to_set (omap (resolve slack_client fetched) member_ids);
                       external_user_group_ids := ∅;
                       is_public := false |}
          /\ forall member_id,
              member_id ∈ member_ids ->
              truthy (fetched !! member_id) = false ->
              1 <= users_info_count member_id (calls w)).
Proof.
  intros Hsent Hrun.
  pose proof (consistent_initial sent Hsent) as Hw0.
  assert (Hlist : forall get_public get_private member_id,
             users_info_count member_id [CallGetChannels get_public get_private] = 0)
    by reflexivity.
  unfold _fetch_channel_permissions, call_get_channels in Hrun.
  unfold bind at 1 2, log, modify, lift in Hrun. cbn [cache calls] in Hrun.
  pose proof (consistent_sent _ _ (Hlist true false) Hw0) as Hw1.
  cbn [cache calls] in Hw1.
  assert (Hfinal : consistent slack_client fetched w
                   /\ forall (channel_permissions : gmap string ExternalAccess)
                             private_channels channel,
                       r = Return channel_permissions ->
                       get_channels env false true = Return private_channels ->
                       channel ∈ channel_ids private_channels ->
                       exists member_ids,
                         member_ids_of fuel slack_client channel = Return member_ids
                         /\ channel_permissions !! channel
                            = Some {| external_user_emails :=
                                        list_to_set
                                          (omap (resolve slack_client fetched) member_ids);
                                      external_user_group_ids := ∅;
                                      is_public := false |}
                         /\ forall member_id,
                             member_id ∈ member_ids ->
                             truthy (fetched !! member_id) = false ->
                             1 <= users_info_count member_id (calls w)).
  { destruct (get_channels env true false) as [public_channels| |].
    2,3: injection Hrun as <- <-; split; [exact Hw1 | discriminate].
    unfold bind at 1 2, log, modify, lift in Hrun. cbn [cache calls] in Hrun.
    pose proof (consistent_sent _ _ (Hlist false true) Hw1) as Hw2.
    cbn [cache calls] in Hw2.
    destruct (get_channels env false true) as [private_channels| |].
    2,3: injection Hrun as <- <-; split; [exact Hw2 | discriminate].
    destruct (private_channels_loop_spec _ _ _ _ _ _ Hw2 Hrun) as (Hw & _ & Hret).
    split; [exact Hw|].
    intros channel_permissions privs channel -> [= <-] Hin.
    by apply (Hret _ eq_refl). }
  destruct Hfinal as [Hw Hchannels].
  destruct (consistent_summary _ Hw) as [Hfound Hnone].
  auto.
Qed.

End MemberResolution.

(** ** Fuel

    The step budget only matters for telling a pagination that ends from one
    that does not: a run that ended, by returning or by raising, ends the
    same way with any larger budget. *)

Section Fuel.
Import SlackSdk SlackUtils SlackDocSync.

Lemma paginated_call_fuel {C A} fuel :
  forall fuel' (call : option string -> Z -> M (world C) (SlackSdk.Page A)) cursor w r w',
    paginated_call fuel call cursor w = (r, w') ->
    r <> OutOfFuel ->
    fuel <= fuel' ->
    paginated_call fuel' call cursor w = (r, w').
Proof.
  induction fuel as [|fuel IH]; intros fuel' call cursor w r w' Hrun Hfuel Hle.
  - injection Hrun as <- _. contradiction.
  - destruct fuel' as [|fuel']; [lia|].
    cbn [paginated_call] in Hrun |- *.
    destruct (bind_finished _ _ _ _ _ Hrun Hfuel)
      as [(response & w1 & Hcall & Hrest) | (e & Hcall & ->)].
    + unfold bind at 1. rewrite Hcall.
      destruct (truthy (Some (next_cursor response))); [|exact Hrest].
      destruct (bind_finished _ _ _ _ _ Hrest Hfuel)
        as [(rest & w2 & Hpages & Hret) | (e & Hpages & ->)].
      * unfold bind. rewrite (IH fuel' _ _ _ _ _ Hpages) by (discriminate || lia).
        exact Hret.
      * unfold bind. by rewrite (IH fuel' _ _ _ _ _ Hpages) by (discriminate || lia).
    + unfold bind. by rewrite Hcall.
Qed.

Lemma private_channels_loop_fuel fuel fuel' slack_client ids :
  forall (channel_permissions : gmap string ExternalAccess) w r w',
    private_channels_loop fuel slack_client ids channel_permissions w = (r, w') ->
    r <> OutOfFuel ->
    fuel <= fuel' ->
    private_channels_loop fuel' slack_client ids channel_permissions w = (r, w').
Proof.
  induction ids as [|i rest IH]; intros acc w r w' Hrun Hfuel Hle; [exact Hrun|].
  cbn [private_channels_loop] in Hrun |- *.
  assert (Hids : forall r1 w1,
             collect_member_ids fuel slack_client i w = (r1, w1) ->
             r1 <> OutOfFuel ->
             collect_member_ids fuel' slack_client i w = (r1, w1)).
  { unfold collect_member_ids, make_paginated_slack_api_call. intros r1 w1 Hr1 Hf1.
    destruct (bind_finished _ _ _ _ _ Hr1 Hf1)
      as [(pages & w2 & Hpages & Hret) | (e & Hpages & ->)];
      unfold bind;
      by rewrite (paginated_call_fuel _ fuel' _ _ _ _ _ Hpages) by (discriminate || lia). }
  destruct (bind_finished _ _ _ _ _ Hrun Hfuel)
    as [(member_ids & w1 & Hmembers & Hrest) | (e & Hmembers & ->)].
  - unfold bind at 1. rewrite (Hids _ _ Hmembers) by discriminate.
    destruct (bind_finished _ _ _ _ _ Hrest Hfuel)
      as [(member_emails & w2 & Hemails & Hloop) | (e & Hemails & ->)].
    + unfold bind at 1. rewrite Hemails. by apply IH.
    + unfold bind at 1. by rewrite Hemails.
  - unfold bind at 1. by rewrite (Hids _ _ Hmembers) by discriminate.
Qed.

Lemma fetch_channel_permissions_fuel fuel fuel' env slack_client workspace_permissions
    w r w' :
  _fetch_channel_permissions fuel env slack_client workspace_permissions w = (r, w') ->
  r <> OutOfFuel ->
  fuel <= fuel' ->
  _fetch_channel_permissions fuel' env slack_client workspace_permissions w = (r, w').
Proof.
  unfold _fetch_channel_permissions. intros Hrun Hfuel Hle.
  destruct (bind_finished _ _ _ _ _ Hrun Hfuel)
    as [(public_channels & w1 & Hpublic & Hrest) | (e & Hpublic & ->)].
  - unfold bind at 1. rewrite Hpublic.
    destruct (bind_finished _ _ _ _ _ Hrest Hfuel)
      as [(private_channels & w2 & Hprivate & Hloop) | (e & Hprivate & ->)].
    + unfold bind at 1. rewrite Hprivate.
      by apply (private_channels_loop_fuel fuel).
    + unfold bind at 1. by rewrite Hprivate.
  - unfold bind at 1. by rewrite Hpublic.
Qed.

(** A run of [slack_doc_sync] that ended is the same run with more fuel. *)
Lemma slack_doc_sync_fuel fuel fuel' env slack_client callback :
  sync_outcome (slack_doc_sync fuel env slack_client callback) <> OutOfFuel ->
  fuel <= fuel' ->
  slack_doc_sync fuel' env slack_client callback
  = slack_doc_sync fuel env slack_client callback.
Proof.
  unfold slack_doc_sync. intros Hfuel Hle.
  destruct (fetch_user_id_to_email_map env) as [m| |]; try reflexivity.
  destruct (decide (m = ∅)); [reflexivity|].
  destruct (_fetch_channel_permissions fuel _ _ _ _) as [r w] eqn:Hrun.
  assert (Hr : r <> OutOfFuel)
    by (destruct r; [discriminate | discriminate | by exfalso; apply Hfuel]).
  by rewrite (fetch_channel_permissions_fuel _ fuel' _ _ _ _ _ _ Hrun Hr Hle).
Qed.

End Fuel.

Section MemberResolutionExamples.
Import SlackSdk SlackUtils SlackDocSync Resolution SlackExamples.

(** C7, as the claim states it, fails for a member whose email cannot be
    resolved: nothing is cached for it, and in a workspace where it is in two
    private channels it is looked up twice in one run. *)
Lemma unresolved_member_looked_up_twice :
  listed_users !! "U-ghost" = None
  /\ looked_up_email client "U-ghost" = None
  /\ sync_outcome example_run = Return tt
  /\ users_info_count "U-ghost" (sync_calls example_run) = 2.
Proof. vm_compute. repeat split. Qed.

Lemma private_channel_member_resolution_witness :
  let run := _fetch_channel_permissions 8 (workspace [[slim_with_access]]) client
               (_fetch_workspace_permissions listed_users)
               {| cache := listed_users; calls := [CallFetchUserIdToEmailMap] |} in
  (users_info_count "U-ext" (calls (snd run)) <= 1
   /\ (1 <= users_info_count "U-ext" (calls (snd run)) ->
       cache (snd run) !! "U-ext" = Some "eve@partner.example"))
  /\ cache (snd run) !! "U-ghost" = listed_users !! "U-ghost"
  /\ exists channel_permissions : gmap string ExternalAccess,
       fst run = Return channel_permissions
       /\ exists member_ids,
           member_ids_of 8 client "C-priv-1" = Return member_ids
           /\ channel_permissions !! "C-priv-1"
              = Some {| external_user_emails :=
                          list_to_set (omap (resolve client listed_users) member_ids);
                        external_user_group_ids := ∅;
                        is_public := false |}
           /\ forall member_id,
               member_id ∈ member_ids ->
               truthy (listed_users !! member_id) = false ->
               1 <= users_info_count member_id (calls (snd run)).
Proof.
  intros run.
  destruct (private_channel_member_resolution client listed_users 8
              (workspace [[slim_with_access]])
              (_fetch_workspace_permissions listed_users)
              [CallFetchUserIdToEmailMap] (fst run) (snd run))
    as (Hfound & Hnone & Hchannels).
  - intros member_id. reflexivity.
  - apply surjective_pairing.
  - split; [apply Hfound; reflexivity | split; [apply Hnone; reflexivity|]].
    set (cp := match fst run with Return cp => cp | _ => ∅ end).
    assert (Hreturn : fst run = Return cp) by (vm_compute; reflexivity).
    exists cp. split; [exact Hreturn|].
    apply (Hchannels cp [ {| channel_id := Some "C-priv-1" |};
                          {| channel_id := Some "C-priv-2" |} ] "C-priv-1").
    + exact Hreturn.
    + reflexivity.
    + apply list_elem_of_here.
Defined.

End MemberResolutionExamples.

(** * Further properties of the embedded code *)

(** ** Sessions of the mock connector *)

Section MockSessionProperties.
Import MockConnector MockSessions.

(** What one call on a configured connector with an accepting server leaves,
    however it ends. *)
Lemma configured_call_step self server cp include_permissions ys :
  connector_yields self = Some ys ->
  add_checkpoint_ok server = true ->
  let r := _load_from_checkpoint_common self server cp include_permissions in
  current_yield_index (connector_after r) = current_yield_index self + 1
  /\ add_checkpoint_ok (server_after r) = true
  /\ stored_checkpoints (server_after r) = stored_checkpoints server ++ [cp]
  /\ exists ys',
      connector_yields (connector_after r) = Some ys'
      /\ length ys' = length ys
      /\ forall k, k <> current_yield_index self -> ys' !! k = ys !! k.
Proof.
  intros Hys Hok. unfold _load_from_checkpoint_common, _save_checkpoint.
  rewrite Hys, Hok.
  destruct (ys !! current_yield_index self) as [y|] eqn:Hy.
  - destruct (truthy (unhandled_exception y)); cbn; repeat split; eauto.
    eexists. split; [reflexivity|]. split; [apply length_insert|].
    intros k Hk. by apply list_lookup_insert_ne.
  - cbn. repeat split; eauto.
Qed.



Lemma after_calls_configured calls :
  forall self server ys,
    connector_yields self = Some ys ->
    add_checkpoint_ok server = true ->
    current_yield_index (fst (after_calls calls self server))
    = current_yield_index self + length calls
    /\ add_checkpoint_ok (snd (after_calls calls self server)) = true
    /\ stored_checkpoints (snd (after_calls calls self server))
       = stored_checkpoints server ++ map passed calls
    /\ exists ys',
        connector_yields (fst (after_calls calls self server)) = Some ys'
        /\ length ys' = length ys
        /\ forall k, current_yield_index self + length calls <= k -> ys' !! k = ys !! k.
Proof.
  induction calls as [|c rest IH]; intros self server ys Hys Hok.
  - cbn. rewrite Nat.add_0_r, app_nil_r. repeat split; eauto.
  - cbn [after_calls length map].
    destruct (configured_call_step self server (passed c) (with_perm_sync c) ys Hys Hok)
      as (Hindex & Hok' & Hstored & ys1 & Hys1 & Hlen1 & Hsame1).
    destruct (IH _ _ ys1 Hys1 Hok') as (Hindex' & Hok'' & Hstored' & ys2 & Hys2 & Hlen2 & Hsame2).
    split; [rewrite Hindex', Hindex; lia|].
    split; [exact Hok''|].
    split; [rewrite Hstored', Hstored, <- app_assoc; reflexivity|].
    exists ys2. split; [exact Hys2|]. split; [congruence|].
    intros k Hk. rewrite Hsame2 by (rewrite Hindex; lia). apply Hsame1. lia.
Qed.

(** X2. After any list of calls on a configured connector whose server
    accepts checkpoints, the server has stored exactly the checkpoints passed
    in, in call order, after those it had, and the connector has moved on by
    one yield per call, whether the calls returned or raised. *)
Theorem calls_store_every_checkpoint calls self server ys :
  connector_yields self = Some ys ->
  add_checkpoint_ok server = true ->
  stored_checkpoints (snd (after_calls calls self server))
  = stored_checkpoints server ++ map passed calls
  /\ current_yield_index (fst (after_calls calls self server))
     = current_yield_index self + length calls.
Proof.
  intros Hys Hok.
  destruct (after_calls_configured calls self server ys Hys Hok) as (Hi & _ & Hs & _).
  auto.
Qed.

Lemma calls_store_every_checkpoint_witness :
  let calls := [ {| with_perm_sync := true; passed := build_dummy_checkpoint |};
                 {| with_perm_sync := false; passed := Examples.next_checkpoint |} ] in
  stored_checkpoints (snd (after_calls calls Examples.loaded_connector Examples.server))
  = stored_checkpoints Examples.server
    ++ [build_dummy_checkpoint; Examples.next_checkpoint]
  /\ current_yield_index (fst (after_calls calls Examples.loaded_connector Examples.server))
     = 0 + 2.
Proof.
  intros calls.
  apply (calls_store_every_checkpoint calls Examples.loaded_connector Examples.server
           [Examples.one_yield]); reflexivity.
Defined.

Lemma call_each_after calls :
  forall self server k c,
    calls !! k = Some c ->
    call_each calls self server !! k
    = Some (_load_from_checkpoint_common
              (fst (after_calls (take k calls) self server))
              (snd (after_calls (take k calls) self server))
              (passed c) (with_perm_sync c)).
Proof.
  induction calls as [|c0 rest IH]; intros self server k c Hk; [discriminate|].
  destruct k as [|k].
  - injection Hk as ->. reflexivity.
  - cbn [call_each take after_calls]. cbn in Hk. by apply IH.
Qed.

(** X3. In a list of calls on a configured connector whose server accepts
    checkpoints, the call number [k] serves the configured yield number
    [current_yield_index + k], whatever the earlier calls did: if that yield
    simulates no unhandled exception, the call returns its checkpoint and
    yields its documents (with the mock access filled in under permission
    sync) and then its failures. *)
Theorem kth_call_serves_kth_yield calls self server ys k c y :
  connector_yields self = Some ys ->
  add_checkpoint_ok server = true ->
  calls !! k = Some c ->
  ys !! (current_yield_index self + k) = Some y ->
  truthy (unhandled_exception y) = false ->
  exists r,
    call_each calls self server !! k = Some r
    /\ outcome r = Return (checkpoint y)
    /\ yielded r
       = map inl (map (with_mock_permissions (with_perm_sync c)) (documents y))
         ++ map inr (failures y).
Proof.
  intros Hys Hok Hk Hy Hexn.
  eexists. split; [by apply call_each_after|].
  destruct (after_calls_configured (take k calls) self server ys Hys Hok)
    as (Hindex & Hok' & _ & ys' & Hys' & _ & Hsame).
  assert (Hlen : length (take k calls) = k).
  { apply length_take_le. apply lookup_lt_Some in Hk. lia. }
  rewrite Hlen in Hindex, Hsame.
  unfold _load_from_checkpoint_common, _save_checkpoint, yielded.
  rewrite Hys', Hok', Hindex, (Hsame _ (Nat.le_refl _)), Hy, Hexn.
  cbn [trace outcome]. by rewrite batch_trace_yielded.
Qed.

Lemma kth_call_serves_kth_yield_witness :
  let failing :=
    {| documents := [];
       checkpoint := build_dummy_checkpoint;
       failures := [];
       unhandled_exception := Some "boom" |} in
  let self := {| connector_yields := Some [failing; Examples.one_yield];
                 current_yield_index := 0 |} in
  let calls := [ {| with_perm_sync := false; passed := build_dummy_checkpoint |};
                 {| with_perm_sync := true; passed := build_dummy_checkpoint |} ] in
  exists r,
    call_each calls self Examples.server !! 1 = Some r
    /\ outcome r = Return Examples.next_checkpoint
    /\ yielded r
       = map inl (map (with_mock_permissions true)
                      [Examples.doc_without_access; Examples.doc_with_access])
         ++ map inr [Examples.a_failure].
Proof.
  intros failing self calls.
  apply (kth_call_serves_kth_yield calls self Examples.server
           [failing; Examples.one_yield] 1
           {| with_perm_sync := true; passed := build_dummy_checkpoint |}
           Examples.one_yield); reflexivity.
Defined.

(** X4. Until yields are configured, every call of a list of calls raises
    the [ValueError], yields nothing, and leaves the connector and the server
    as they were: no checkpoint reaches the server. *)
Theorem unconfigured_calls_touch_nothing calls self server :
  connector_yields self = None ->
  after_calls calls self server = (self, server)
  /\ Forall (fun r => outcome r = Raise (ValueError "No connector yields configured")
                      /\ trace r = [])
            (call_each calls self server).
Proof.
  intros Hnone.
  assert (Hone : forall cp inc,
             _load_from_checkpoint_common self server cp inc
             = {| trace := [];
                  outcome := Raise (ValueError "No connector yields configured");
                  connector_after := self;
                  server_after := server |}).
  { intros cp inc. unfold _load_from_checkpoint_common. by rewrite Hnone. }
  induction calls as [|c rest [IHafter IHeach]]; [by split|].
  cbn [after_calls call_each]. rewrite Hone. cbn [connector_after server_after].
  split; [exact IHafter|]. constructor; [by split | exact IHeach].
Qed.

Lemma unconfigured_calls_touch_nothing_witness :
  let calls := [ {| with_perm_sync := true; passed := build_dummy_checkpoint |};
                 {| with_perm_sync := false; passed := build_dummy_checkpoint |} ] in
  after_calls calls MockConnector.init Examples.server
  = (MockConnector.init, Examples.server)
  /\ Forall (fun r => outcome r = Raise (ValueError "No connector yields configured")
                      /\ trace r = [])
            (call_each calls MockConnector.init Examples.server).
Proof.
  intros calls.
  apply (unconfigured_calls_touch_nothing calls MockConnector.init Examples.server).
  reflexivity.
Defined.

(** X5. Permission sync never replaces an access a document already has:
    after a call that returns, the connector's stored yield holds the
    documents that were yielded (the objects are shared), each with an
    access, and every document that had one, public or not, is as it was. *)
Theorem perm_sync_keeps_existing_access self server cp ys y :
  connector_yields self = Some ys ->
  ys !! current_yield_index self = Some y ->
  add_checkpoint_ok server = true ->
  truthy (unhandled_exception y) = false ->
  let r := load_from_checkpoint_with_perm_sync self server cp in
  exists ys' y',
    connector_yields (connector_after r) = Some ys'
    /\ ys' !! current_yield_index self = Some y'
    /\ yielded r = map inl (documents y') ++ map inr (failures y')
    /\ Forall (fun d => external_access d <> None) (documents y')
    /\ Forall2 (fun d d' =>
                  id d' = id d
                  /\ (forall access, external_access d = Some access -> d' = d))
               (documents y) (documents y').
Proof.
  intros Hys Hy Hok Hexn.
  unfold load_from_checkpoint_with_perm_sync, _load_from_checkpoint_common,
    _save_checkpoint, yielded.
  rewrite Hys, Hok, Hy, Hexn. cbn [trace outcome connector_after connector_yields].
  eexists _, _. split; [reflexivity|].
  split; [apply list_lookup_insert_eq; by apply lookup_lt_Some in Hy|].
  cbn [documents failures]. split; [apply batch_trace_yielded|]. split.
  - apply Forall_forall. intros d [d0 [-> _]]%list_elem_of_fmap.
    rewrite with_mock_permissions_on. discriminate.
  - induction (documents y) as [|d ds IH]; constructor; [|exact IH].
    unfold with_mock_permissions. destruct (external_access d) eqn:Hd.
    + split; [reflexivity | auto].
    + split; [reflexivity | discriminate].
Qed.

Lemma perm_sync_keeps_existing_access_witness :
  let r := load_from_checkpoint_with_perm_sync Examples.loaded_connector
             Examples.server build_dummy_checkpoint in
  exists ys' y',
    connector_yields (connector_after r) = Some ys'
    /\ ys' !! 0 = Some y'
    /\ yielded r = map inl (documents y') ++ map inr (failures y')
    /\ Forall (fun d => external_access d <> None) (documents y')
    /\ Forall2 (fun d d' =>
                  id d' = id d
                  /\ (forall access, external_access d = Some access -> d' = d))
               (documents Examples.one_yield) (documents y').
Proof.
  apply (perm_sync_keeps_existing_access Examples.loaded_connector Examples.server
           build_dummy_checkpoint [Examples.one_yield] Examples.one_yield);
    reflexivity.
Defined.

End MockSessionProperties.

(** ** The document listing of the Slack doc sync *)

Section ListingProperties.
Import SlackSdk SlackDocSync Listing.

Lemma omap_record_of_cons d ds access :
  Slim.external_access d = Some access ->
  omap record_of (d :: ds)
  = {| dea_external_access := access; dea_doc_id := Slim.id d |} :: omap record_of ds.
Proof.
  intros Hd. change (omap record_of (d :: ds))
    with (match record_of d with
          | Some y => y :: omap record_of ds
          | None => omap record_of ds
          end).
  unfold record_of at 1. by rewrite Hd.
Qed.

Lemma document_access_batch_spec (batch : list Slim.SlimDocument) :
  (Forall has_access batch
   /\ yielded (document_access_batch batch) = omap record_of batch
   /\ outcome (document_access_batch batch) = Return tt)
  \/ (exists before d after,
        batch = before ++ d :: after
        /\ Forall has_access before
        /\ Slim.external_access d = None
        /\ yielded (document_access_batch batch) = omap record_of before
        /\ outcome (document_access_batch batch)
           = Raise (ValueError (no_access_message (Slim.id d)))).
Proof.
  induction batch as [|d ds IH].
  - left. repeat split. constructor.
  - cbn [document_access_batch].
    destruct (Slim.external_access d) as [access|] eqn:Hd.
    + cbn [yielded outcome].
      assert (Hhas : has_access d) by (unfold has_access; congruence).
      destruct IH as [(Hall & Hy & Ho) | (before & d' & after & -> & Hall & Hd' & Hy & Ho)].
      * left. split; [by constructor|].
        split; [by rewrite Hy, (omap_record_of_cons _ _ _ Hd) | exact Ho].
      * right. exists (d :: before), d', after.
        split; [reflexivity|]. split; [by constructor|]. split; [exact Hd'|].
        split; [by rewrite Hy, (omap_record_of_cons _ _ _ Hd) | exact Ho].
    + right. exists [], d, ds. repeat split; [constructor | exact Hd].
Qed.

Lemma keeps_going_step callback first count :
  keeps_going callback first (S count) ->
  match callback with Some cb => should_stop cb first = false | None => True end
  /\ keeps_going callback (S first) count.
Proof.
  unfold keeps_going. destruct callback as [cb|]; [|auto].
  intros Hgo. split; [apply Hgo; lia | intros i Hi; apply Hgo; lia].
Qed.

(** While every document has an access and the callback keeps going, the
    loop yields the records of the batches in order. *)
Lemma document_access_loop_complete batches :
  forall ending callback asked,
    Forall (Forall has_access) batches ->
    keeps_going callback asked (length batches) ->
    yielded (document_access_loop batches ending callback asked)
    = omap record_of (concat batches)
    /\ outcome (document_access_loop batches ending callback asked)
       = match ending with Some e => Raise e | None => Return tt end.
Proof.
  induction batches as [|b bs IH]; intros ending callback asked Hall Hgo; [by split|].
  apply Forall_cons in Hall as [Hb Hbs].
  apply keeps_going_step in Hgo as [Hnow Hlater].
  cbn [document_access_loop concat].
  destruct (document_access_batch_spec b)
    as [(_ & Hy & Ho) | (before & d & after & -> & _ & Hd & _)].
  - rewrite Ho.
    assert (Hstop : match callback with
                    | Some cb => should_stop cb asked
                    | None => false
                    end = false) by (by destruct callback).
    rewrite Hstop. cbn [yielded outcome].
    destruct (IH ending callback (S asked) Hbs Hlater) as [Hy' Ho'].
    by rewrite Hy, Hy', omap_app.
  - apply Forall_app in Hb as [_ Hb]. apply Forall_cons in Hb as [Hbad _].
    contradiction.
Qed.

(** X6. When every listed document has an access, the listing ends normally
    and the callback, if any, never asks to stop, [_get_slack_document_access]
    returns normally after yielding one record per document, in listing
    order, with the document's id and its own access. *)
Theorem document_access_complete env channel_permissions callback :
  Forall (Forall has_access) (fst (retrieve_all_slim_documents env)) ->
  snd (retrieve_all_slim_documents env) = None ->
  keeps_going callback 0 (length (fst (retrieve_all_slim_documents env))) ->
  let g := _get_slack_document_access env channel_permissions callback in
  outcome g = Return tt
  /\ yielded g = omap record_of (concat (fst (retrieve_all_slim_documents env)))
  /\ length (yielded g) = length (concat (fst (retrieve_all_slim_documents env))).
Proof.
  intros Hall Hend Hgo. unfold _get_slack_document_access.
  destruct (document_access_loop_complete _ (snd (retrieve_all_slim_documents env))
              callback 0 Hall Hgo) as [Hy Ho].
  rewrite Hy, Ho, Hend. split; [reflexivity | split; [reflexivity|]].
  apply Forall_concat in Hall. revert Hall.
  generalize (concat (fst (retrieve_all_slim_documents env))) as docs.
  intros docs Hall. induction Hall as [|d ds Hd _ IH]; [reflexivity|].
  unfold has_access in Hd.
  destruct (Slim.external_access d) as [access|] eqn:Haccess; [|contradiction].
  rewrite (omap_record_of_cons _ _ _ Haccess). cbn [length]. by rewrite IH.
Qed.

Lemma document_access_complete_witness :
  let g := _get_slack_document_access
             (SlackExamples.workspace [[SlackExamples.slim_with_access]]) ∅ None in
  outcome g = Return tt
  /\ yielded g = omap record_of (concat [[SlackExamples.slim_with_access]])
  /\ length (yielded g) = length (concat [[SlackExamples.slim_with_access]]).
Proof.
  apply (document_access_complete
           (SlackExamples.workspace [[SlackExamples.slim_with_access]]) ∅ None).
  - repeat constructor. discriminate.
  - reflexivity.
  - exact I.
Defined.

(** X7. The [ValueError] names the first listed document without access:
    when the batches before its batch are complete, the callback has not asked
    to stop after any of them, and the documents before it in its batch have
    an access, exactly the records of the documents before it are yielded and
    the error carries its id. *)
Theorem document_access_first_missing env channel_permissions callback
    earlier before d after later :
  fst (retrieve_all_slim_documents env) = earlier ++ (before ++ d :: after) :: later ->
  Forall (Forall has_access) earlier ->
  Forall has_access before ->
  Slim.external_access d = None ->
  keeps_going callback 0 (length earlier) ->
  let g := _get_slack_document_access env channel_permissions callback in
  outcome g = Raise (ValueError (no_access_message (Slim.id d)))
  /\ yielded g = omap record_of (concat earlier ++ before).
Proof.
  intros Hlisting Hearlier Hbefore Hd Hgo. unfold _get_slack_document_access.
  rewrite Hlisting. generalize (snd (retrieve_all_slim_documents env)) as ending.
  intros ending. clear Hlisting. revert Hgo. generalize 0 as asked.
  induction earlier as [|b bs IH]; intros asked Hgo.
  - cbn [app concat document_access_loop].
    destruct (document_access_batch_spec (before ++ d :: after))
      as [(Hall & _) | (before' & d' & after' & Hsplit & Hall' & Hd' & Hy & Ho)].
    + apply Forall_app in Hall as [_ Hall]. apply Forall_cons in Hall as [Hbad _].
      contradiction.
    + assert (before' = before /\ d' = d) as [-> ->].
      { clear Hy Ho. revert before' Hsplit Hall'.
        induction before as [|x xs IHx]; intros [|x' xs'] Hsplit Hall'.
        - by injection Hsplit as ->.
        - injection Hsplit as -> _. apply Forall_cons in Hall' as [Hbad _].
          contradiction.
        - injection Hsplit as -> _. apply Forall_cons in Hbefore as [Hbad _].
          contradiction.
        - injection Hsplit as -> Hsplit.
          apply Forall_cons in Hbefore as [_ Hxs].
          apply Forall_cons in Hall' as [_ Hxs'].
          destruct (IHx Hxs xs' Hsplit Hxs') as [-> ->]. by split. }
      rewrite Ho. by split.
  - apply Forall_cons in Hearlier as [Hb Hbs].
    apply keeps_going_step in Hgo as [Hnow Hlater].
    cbn [app concat document_access_loop].
    destruct (document_access_batch_spec b)
      as [(_ & Hyb & Hob) | (before' & d' & after' & -> & _ & Hd' & _)].
    + rewrite Hob.
      assert (Hstop : match callback with
                      | Some cb => should_stop cb asked
                      | None => false
                      end = false) by (by destruct callback).
      rewrite Hstop. cbn [yielded outcome].
      destruct (IH Hbs (S asked) Hlater) as [Ho' Hy'].
      split; [exact Ho'|]. by rewrite Hyb, Hy', <- app_assoc, !omap_app.
    + apply Forall_app in Hb as [_ Hb]. apply Forall_cons in Hb as [Hbad _].
      contradiction.
Qed.

Lemma document_access_first_missing_witness :
  let g := _get_slack_document_access
             (SlackExamples.workspace
                [[SlackExamples.slim_with_access];
                 [SlackExamples.slim_with_access; SlackExamples.slim_without_access]])
             ∅ None in
  outcome g
  = Raise (ValueError (no_access_message (Slim.id SlackExamples.slim_without_access)))
  /\ yielded g
     = omap record_of (concat [[SlackExamples.slim_with_access]]
                       ++ [SlackExamples.slim_with_access]).
Proof.
  apply (document_access_first_missing
           (SlackExamples.workspace
              [[SlackExamples.slim_with_access];
               [SlackExamples.slim_with_access; SlackExamples.slim_without_access]])
           ∅ None [[SlackExamples.slim_with_access]] [SlackExamples.slim_with_access]
           SlackExamples.slim_without_access [] []).
  - reflexivity.
  - repeat constructor. discriminate.
  - repeat constructor. discriminate.
  - reflexivity.
  - exact I.
Defined.

(** X8. A stop signal is honoured only between batches: when the callback
    first asks to stop after the batch number [n] and every document up to
    there has an access, the records of the batches [0] to [n] have all been
    yielded, in order, when the [RuntimeError] is raised, and nothing of the
    later batches. *)
Theorem document_access_stops_between_batches env channel_permissions cb
    done current later :
  fst (retrieve_all_slim_documents env) = done ++ current :: later ->
  Forall (Forall has_access) (done ++ [current]) ->
  keeps_going (Some cb) 0 (length done) ->
  should_stop cb (length done) = true ->
  let g := _get_slack_document_access env channel_permissions (Some cb) in
  outcome g = Raise (RuntimeError "_get_slack_document_access: Stop signal detected")
  /\ yielded g = omap record_of (concat (done ++ [current])).
Proof.
  intros Hlisting Hall Hgo Hstop. unfold _get_slack_document_access.
  rewrite Hlisting. generalize (snd (retrieve_all_slim_documents env)) as ending.
  intros ending. clear Hlisting.
  assert (Hgen : forall asked,
             keeps_going (Some cb) asked (length done) ->
             should_stop cb (asked + length done) = true ->
             outcome (document_access_loop (done ++ current :: later) ending (Some cb) asked)
             = Raise (RuntimeError "_get_slack_document_access: Stop signal detected")
             /\ yielded (document_access_loop (done ++ current :: later) ending
                           (Some cb) asked)
                = omap record_of (concat (done ++ [current]))).
  { clear Hgo Hstop. induction done as [|b bs IH]; intros asked Hgo Hstop.
    - cbn [app length] in *. rewrite Nat.add_0_r in Hstop.
      apply Forall_cons in Hall as [Hcurrent _].
      cbn [document_access_loop concat].
      destruct (document_access_batch_spec current)
        as [(_ & Hy & Ho) | (before & d & after & -> & _ & Hd & _)].
      + rewrite Ho, Hstop. cbn [yielded outcome]. by rewrite app_nil_r.
      + apply Forall_app in Hcurrent as [_ Hc]. apply Forall_cons in Hc as [Hbad _].
        contradiction.
    - cbn [app] in Hall. apply Forall_cons in Hall as [Hb Hrest].
      apply keeps_going_step in Hgo as [Hnow Hlater].
      cbn [app concat document_access_loop length] in *.
      destruct (document_access_batch_spec b)
        as [(_ & Hy & Ho) | (before & d & after & -> & _ & Hd & _)].
      + rewrite Ho, Hnow. cbn [yielded outcome].
        destruct (IH Hrest (S asked) Hlater) as [Ho' Hy'].
        { by replace (S asked + length bs) with (asked + S (length bs)) by lia. }
        split; [exact Ho'|]. by rewrite Hy, Hy', omap_app.
      + apply Forall_app in Hb as [_ Hb]. apply Forall_cons in Hb as [Hbad _].
        contradiction. }
  apply Hgen; [exact Hgo | exact Hstop].
Qed.

Lemma document_access_stops_between_batches_witness :
  let cb := {| should_stop := fun asked => Nat.eqb asked 1 |} in
  let batch := [SlackExamples.slim_with_access] in
  let g := _get_slack_document_access
             (SlackExamples.workspace [batch; batch; batch]) ∅ (Some cb) in
  outcome g = Raise (RuntimeError "_get_slack_document_access: Stop signal detected")
  /\ yielded g = omap record_of (concat ([batch] ++ [batch])).
Proof.
  intros cb batch.
  apply (document_access_stops_between_batches
           (SlackExamples.workspace [batch; batch; batch]) ∅ cb [batch] batch [batch]).
  - reflexivity.
  - repeat constructor; discriminate.
  - intros i Hi. cbn in Hi. assert (i = 0) as -> by lia. reflexivity.
  - reflexivity.
Defined.

End ListingProperties.

(** ** Cursor pagination *)

Section PaginationProperties.
Import SlackSdk SlackUtils Pagination.

Variable slack_client : WebClient.
Variable channel : string.

Implicit Types w : world (gmap string string).

Lemma truthy_cursor (cursor : string) : truthy (Some cursor) = false <-> cursor = "".
Proof. destruct cursor; cbn; split; congruence. Qed.

(** X9. A paginated call that returns has sent one request per page: the
    first with the starting cursor, each later one with the [next_cursor] of
    the response before it, all with the limit 900; every response but the
    last carried a non-empty [next_cursor], the last an empty one, and the
    pages returned are the payloads of these responses, in order. *)
Theorem pagination_follows_cursors fuel start w pages w' :
  paginated_call fuel (call_conversations_members slack_client channel) start w
  = (Return pages, w') ->
  exists earlier final,
    pages = map data (earlier ++ [final])
    /\ cache w' = cache w
    /\ calls w' = calls w ++ member_requests channel (cursors_for start earlier)
    /\ Forall2 (fun cursor response =>
                  conversations_members slack_client channel cursor _SLACK_LIMIT
                  = Return response)
               (cursors_for start earlier) (earlier ++ [final])
    /\ Forall (fun response => next_cursor response <> "") earlier
    /\ next_cursor final = "".
Proof.
  revert start w pages w'. induction fuel as [|fuel IH]; intros start w pages w' Hrun.
  - discriminate.
  - cbn [paginated_call] in Hrun.
    apply bind_Return in Hrun as (response & w1 & Hcall & Hrest).
    unfold call_conversations_members, bind, log, modify, lift in Hcall.
    cbn [cache calls] in Hcall. injection Hcall as Hresponse <-.
    destruct (truthy (Some (next_cursor response))) eqn:Hmore.
    + apply bind_Return in Hrest as (rest & w2 & Hpages & Hret).
      injection Hret as <- <-.
      destruct (IH _ _ _ _ Hpages)
        as (earlier & final & -> & Hcache & Hcalls & Hchain & Hearlier & Hfinal).
      cbn [cache calls] in Hcache, Hcalls.
      exists (response :: earlier), final.
      split; [reflexivity|]. split; [exact Hcache|].
      split; [rewrite Hcalls, <- app_assoc; reflexivity|].
      split; [constructor; [exact Hresponse | exact Hchain]|].
      split; [|exact Hfinal].
      constructor; [|exact Hearlier].
      intros Hempty. apply truthy_cursor in Hempty. congruence.
    + injection Hrest as <- <-. exists [], response.
      split; [reflexivity|]. split; [reflexivity|]. split; [reflexivity|].
      split; [by repeat constructor|]. split; [constructor|].
      by apply truthy_cursor.
Qed.

Lemma paginated_call_step fuel start w :
  paginated_call (S fuel) (call_conversations_members slack_client channel) start w
  = match conversations_members slack_client channel start _SLACK_LIMIT with
    | Return response =>
        let w1 := {| cache := cache w;
                     calls := calls w
                              ++ [CallConversationsMembers channel start _SLACK_LIMIT] |} in
        if truthy (Some (next_cursor response)) then
          match paginated_call fuel (call_conversations_members slack_client channel)
                  (Some (next_cursor response)) w1 with
          | (Return rest, w2) => (Return (data response :: rest), w2)
          | (Raise e, w2) => (Raise e, w2)
          | (OutOfFuel, w2) => (OutOfFuel, w2)
          end
        else (Return [data response], w1)
    | Raise e =>
        (Raise e, {| cache := cache w;
                     calls := calls w
                              ++ [CallConversationsMembers channel start _SLACK_LIMIT] |})
    | OutOfFuel =>
        (OutOfFuel, {| cache := cache w;
                       calls := calls w
                                ++ [CallConversationsMembers channel start _SLACK_LIMIT] |})
    end.
Proof.
  cbn [paginated_call]. unfold call_conversations_members at 1.
  unfold bind at 1 2, log, modify, lift. cbn [cache calls].
  destruct (conversations_members slack_client channel start _SLACK_LIMIT)
    as [response| |]; try reflexivity.
  destruct (truthy (Some (next_cursor response))); reflexivity.
Qed.

(** X10. Conversely, when the responses of the client chain from the starting
    cursor to a response with an empty [next_cursor], a budget of one step
    per response is enough: the paginated call returns their payloads and has
    sent exactly these requests. *)
Theorem pagination_ends_with_cursor_chain start earlier final w :
  Forall2 (fun cursor response =>
             conversations_members slack_client channel cursor _SLACK_LIMIT
             = Return response)
          (cursors_for start earlier) (earlier ++ [final]) ->
  Forall (fun response => next_cursor response <> "") earlier ->
  next_cursor final = "" ->
  paginated_call (S (length earlier))
    (call_conversations_members slack_client channel) start w
  = (Return (map data (earlier ++ [final])),
     {| cache := cache w;
        calls := calls w ++ member_requests channel (cursors_for start earlier) |}).
Proof.
  revert start w. induction earlier as [|response earlier IH];
    intros start w Hchain Hearlier Hfinal.
  - apply Forall2_cons in Hchain as [Hresponse _].
    cbn [length]. rewrite paginated_call_step, Hresponse.
    apply truthy_cursor in Hfinal. by rewrite Hfinal.
  - apply Forall2_cons in Hchain as [Hresponse Hchain].
    apply Forall_cons in Hearlier as [Hmore Hearlier].
    cbn [length]. rewrite paginated_call_step, Hresponse.
    destruct (truthy (Some (next_cursor response))) eqn:Htruthy;
      [|by apply truthy_cursor in Htruthy].
    cbn zeta. rewrite (IH _ _ Hchain Hearlier Hfinal). cbn [cache calls].
    by rewrite <- app_assoc.
Qed.

(** X11. The loop has no page cap: against a client that answers every
    request with a non-empty [next_cursor], no budget suffices; the call
    neither returns nor raises, and has sent as many requests as the budget
    allowed. *)
Theorem pagination_without_end fuel start w :
  (forall cursor,
      exists response,
        conversations_members slack_client channel cursor _SLACK_LIMIT = Return response
        /\ next_cursor response <> "") ->
  exists sent,
    paginated_call fuel (call_conversations_members slack_client channel) start w
    = (OutOfFuel, {| cache := cache w; calls := calls w ++ sent |})
    /\ length sent = fuel.
Proof.
  intros Hmore. revert start w. induction fuel as [|fuel IH]; intros start w.
  - exists []. destruct w. cbn. unfold lift. by rewrite app_nil_r.
  - destruct (Hmore start) as (response & Hresponse & Hcursor).
    rewrite paginated_call_step, Hresponse.
    destruct (truthy (Some (next_cursor response))) eqn:Htruthy;
      [|by apply truthy_cursor in Htruthy].
    destruct (IH (Some (next_cursor response))
                {| cache := cache w;
                   calls := calls w
                            ++ [CallConversationsMembers channel start _SLACK_LIMIT] |})
      as (sent & Hrun & Hlen).
    exists (CallConversationsMembers channel start _SLACK_LIMIT :: sent).
    cbn zeta. rewrite Hrun. cbn [cache calls].
    split; [by rewrite <- app_assoc | cbn; by rewrite Hlen].
Qed.

End PaginationProperties.

Section PaginationExamples.
Import SlackSdk SlackUtils Pagination.

Lemma pagination_follows_cursors_witness :
  let w := {| cache := (∅ : gmap string string); calls := [] |} in
  let run := paginated_call 5
               (call_conversations_members SlackExamples.client "C-priv-1") None w in
  exists earlier final,
    [ {| members := Some ["U1"; "U-ext"; "U-ghost"] |}; {| members := Some ["U2"] |} ]
    = map data (earlier ++ [final])
    /\ cache (snd run) = cache w
    /\ calls (snd run)
       = calls w ++ member_requests "C-priv-1" (cursors_for None earlier)
    /\ Forall2 (fun cursor response =>
                  conversations_members SlackExamples.client "C-priv-1" cursor _SLACK_LIMIT
                  = Return response)
               (cursors_for None earlier) (earlier ++ [final])
    /\ Forall (fun response => next_cursor response <> "") earlier
    /\ next_cursor final = "".
Proof.
  intros w run.
  apply (pagination_follows_cursors SlackExamples.client "C-priv-1" 5 None w).
  reflexivity.
Defined.

Lemma pagination_ends_with_cursor_chain_witness :
  let w := {| cache := (∅ : gmap string string); calls := [] |} in
  let first := {| data := {| members := Some ["U1"; "U-ext"; "U-ghost"] |};
                  next_cursor := "page-2" |} in
  let second := {| data := {| members := Some ["U2"] |}; next_cursor := "" |} in
  paginated_call 2 (call_conversations_members SlackExamples.client "C-priv-1") None w
  = (Return (map data ([first] ++ [second])),
     {| cache := cache w;
        calls := calls w ++ member_requests "C-priv-1" (cursors_for None [first]) |}).
Proof.
  intros w first second.
  apply (pagination_ends_with_cursor_chain SlackExamples.client "C-priv-1"
           None [first] second w).
  - repeat constructor.
  - repeat constructor. discriminate.
  - reflexivity.
Defined.

Lemma pagination_without_end_witness :
  let endless :=
    {| users_info := fun _ => Raise SlackApiError;
       conversations_members := fun _ _ _ =>
         Return {| data := {| members := Some ["U1"] |}; next_cursor := "again" |} |} in
  let w := {| cache := (∅ : gmap string string); calls := [] |} in
  exists sent,
    paginated_call 7 (call_conversations_members endless "C-priv-1") None w
    = (OutOfFuel, {| cache := cache w; calls := calls w ++ sent |})
    /\ length sent = 7.
Proof.
  intros endless w.
  apply (pagination_without_end endless "C-priv-1" 7 None w).
  intros cursor. eexists. split; [reflexivity | discriminate].
Defined.

End PaginationExamples.

(** ** The expert cache *)

Section ExpertCacheProperties.
Import SlackSdk SlackUtils.

Implicit Types w : world (gmap string (option BasicExpertInfo)).

(** Every way a call with a non-empty user id can end. *)
Lemma expert_info_from_slack_id_run client w user_id :
  truthy (Some user_id) = true ->
  match cache w !! user_id with
  | Some cached => expert_info_from_slack_id (Some user_id) client w = (Return cached, w)
  | None =>
      let w1 := {| cache := cache w; calls := calls w ++ [CallUsersInfo user_id] |} in
      match users_info client user_id with
      | Return response =>
          let found :=
            if ok response then Some (expert_of_response response) else None in
          expert_info_from_slack_id (Some user_id) client w
          = (Return found,
             {| cache := <[user_id := found]> (cache w); calls := calls w1 |})
      | Raise e => expert_info_from_slack_id (Some user_id) client w = (Raise e, w1)
      | OutOfFuel => expert_info_from_slack_id (Some user_id) client w = (OutOfFuel, w1)
      end
  end.
Proof.
  intros Htruthy. unfold expert_info_from_slack_id. rewrite Htruthy. cbn [negb].
  change (default "" (Some user_id)) with user_id.
  unfold call_users_info, update_cache, log, bind, get, modify, lift, ret.
  cbn [cache calls].
  destruct (cache w !! user_id) as [cached|] eqn:Hcached; [reflexivity|].
  cbn [cache calls].
  destruct (users_info client user_id) as [response| |]; try reflexivity.
  destruct (ok response); reflexivity.
Qed.

(** X12. Asking again for a user that was just resolved sends no request:
    after a call that returned, a second call with the same arguments returns
    the same value, [None] included, and leaves the cache and the requests
    sent as they are. *)
Theorem expert_info_second_call_is_cached user_id client w found w' :
  expert_info_from_slack_id user_id client w = (Return found, w') ->
  expert_info_from_slack_id user_id client w' = (Return found, w').
Proof.
  intros Hfirst.
  destruct (truthy user_id) eqn:Htruthy.
  - destruct user_id as [user_id|]; [|discriminate].
    pose proof (expert_info_from_slack_id_run client w user_id Htruthy) as Hrun.
    pose proof (expert_info_from_slack_id_run client w' user_id Htruthy) as Hagain.
    destruct (cache w !! user_id) as [cached|] eqn:Hcached.
    + rewrite Hrun in Hfirst. injection Hfirst as <- <-.
      by rewrite Hcached in Hagain.
    + cbn zeta in Hrun.
      destruct (users_info client user_id) as [response| |];
        rewrite Hrun in Hfirst; try discriminate.
      injection Hfirst as <- <-. cbn [cache] in Hagain.
      by rewrite lookup_insert_eq in Hagain.
  - unfold expert_info_from_slack_id in *. rewrite Htruthy in *. cbn [negb] in *.
    injection Hfirst as <- <-. reflexivity.
Qed.

Lemma expert_info_second_call_is_cached_witness :
  let w := {| cache := (∅ : gmap string (option BasicExpertInfo)); calls := [] |} in
  let first := expert_info_from_slack_id (Some "U-gone") SlackExamples.client w in
  expert_info_from_slack_id (Some "U-gone") SlackExamples.client (snd first)
  = (Return None, snd first).
Proof.
  intros w first.
  apply (expert_info_second_call_is_cached (Some "U-gone") SlackExamples.client w).
  reflexivity.
Defined.

(** X13. A call never changes or removes an entry of the cache and sends at
    most one request, a [users_info] for the user asked for, and only when
    that user id is non-empty and not yet a key of the cache; it adds an
    entry only for a new key whose lookup answered. *)
Theorem expert_info_cache_only_grows user_id client w r w' :
  expert_info_from_slack_id user_id client w = (r, w') ->
  (forall key value, cache w !! key = Some value -> cache w' !! key = Some value)
  /\ (calls w' = calls w
      \/ exists requested,
          user_id = Some requested
          /\ requested <> ""
          /\ cache w !! requested = None
          /\ calls w' = calls w ++ [CallUsersInfo requested])
  /\ (forall key, cache w !! key = None -> cache w' !! key <> None ->
                  user_id = Some key /\ exists response,
                    users_info client key = Return response).
Proof.
  intros Hcall.
  destruct (truthy user_id) eqn:Htruthy.
  - destruct user_id as [user_id|]; [|discriminate].
    assert (Hnonempty : user_id <> "") by (intros ->; discriminate).
    pose proof (expert_info_from_slack_id_run client w user_id Htruthy) as Hrun.
    destruct (cache w !! user_id) as [cached|] eqn:Hcached.
    + rewrite Hrun in Hcall. injection Hcall as <- <-.
      split; [auto | split; [by left | congruence]].
    + cbn zeta in Hrun.
      destruct (users_info client user_id) as [response| |] eqn:Hinfo;
        rewrite Hrun in Hcall; injection Hcall as <- <-; cbn [cache calls].
      * split; [|split].
        -- intros key value Hkey. rewrite lookup_insert_ne; [exact Hkey | congruence].
        -- right. eauto.
        -- intros key Hnew Hnow. destruct (decide (user_id = key)) as [-> | Hne]; [eauto|].
           by rewrite lookup_insert_ne in Hnow.
      * split; [auto | split; [right; eauto | congruence]].
      * split; [auto | split; [right; eauto | congruence]].
  - unfold expert_info_from_slack_id in Hcall. rewrite Htruthy in Hcall.
    injection Hcall as <- <-.
    split; [auto | split; [by left | congruence]].
Qed.

Lemma expert_info_cache_only_grows_witness :
  let w := {| cache := ({[ "U-gone" := None ]} : gmap string (option BasicExpertInfo));
              calls := [] |} in
  let run := expert_info_from_slack_id (Some "U-ext") SlackExamples.client w in
  (forall key value, cache w !! key = Some value -> cache (snd run) !! key = Some value)
  /\ (calls (snd run) = calls w
      \/ exists requested,
          Some "U-ext" = Some requested
          /\ requested <> ""
          /\ cache w !! requested = None
          /\ calls (snd run) = calls w ++ [CallUsersInfo requested])
  /\ (forall key, cache w !! key = None -> cache (snd run) !! key <> None ->
                  Some "U-ext" = Some key /\ exists response,
                    users_info SlackExamples.client key = Return response).
Proof.
  intros w run.
  apply (expert_info_cache_only_grows (Some "U-ext") SlackExamples.client w (fst run)).
  apply surjective_pairing.
Defined.

End ExpertCacheProperties.

(** ** More on the permissions the doc sync computes *)

Section ChannelPermissionProperties.
Import SlackSdk SlackUtils SlackDocSync.

(** X14. The workspace record holds exactly the emails that are values of
    the map as it was fetched at the start, no group, and is not public; the
    record of every public channel that is not also listed as private is
    that workspace record itself.  So an email that only a later fallback
    lookup finds is in none of these records. *)
Theorem public_channels_carry_fetched_emails fuel env slack_client callback
    workspace_permissions (channel_permissions : gmap string ExternalAccess) :
  sync_permissions (slack_doc_sync fuel env slack_client callback)
  = Some (workspace_permissions, channel_permissions) ->
  exists fetched : gmap string string,
    fetch_user_id_to_email_map env = Return fetched
    /\ fetched <> ∅
    /\ external_user_group_ids workspace_permissions = ∅
    /\ is_public workspace_permissions = false
    /\ (forall address,
          address ∈ external_user_emails workspace_permissions
          <-> exists member_id, fetched !! member_id = Some address)
    /\ (forall public_channels private_channels channel,
          get_channels env true false = Return public_channels ->
          get_channels env false true = Return private_channels ->
          channel ∈ channel_ids public_channels ->
          channel ∉ channel_ids private_channels ->
          channel_permissions !! channel = Some workspace_permissions).
Proof.
  unfold slack_doc_sync.
  destruct (fetch_user_id_to_email_map env) as [fetched| |]; try discriminate.
  destruct (decide (fetched = ∅)) as [|Hnonempty]; [discriminate|].
  destruct (_fetch_channel_permissions _ _ _ _ _) as [[cp| |] w] eqn:Hrun; try discriminate.
  intros [= <- <-]. exists fetched.
  split; [reflexivity|]. split; [exact Hnonempty|]. split; [reflexivity|].
  split; [reflexivity|]. split.
  { intros address. unfold _fetch_workspace_permissions. cbn [external_user_emails].
    apply elem_of_map_img. }
  intros pubs privs channel Hpubs Hprivs Hin Hout.
  apply fetch_channel_permissions_entries in Hrun
    as (pubs' & privs' & Hpubs' & Hprivs' & Hentries).
  rewrite Hpubs in Hpubs'. rewrite Hprivs in Hprivs'.
  injection Hpubs' as <-. injection Hprivs' as <-.
  destruct (Hentries channel) as [_ Hother].
  rewrite (Hother Hout). by rewrite decide_True.
Qed.

Lemma public_channels_carry_fetched_emails_witness :
  exists (workspace_permissions : ExternalAccess)
         (channel_permissions : gmap string ExternalAccess),
    sync_permissions SlackExamples.example_run
    = Some (workspace_permissions, channel_permissions)
    /\ external_user_group_ids workspace_permissions = ∅
    /\ is_public workspace_permissions = false
    /\ (forall address,
          address ∈ external_user_emails workspace_permissions
          <-> exists member_id, SlackExamples.listed_users !! member_id = Some address)
    /\ channel_permissions !! "C-pub" = Some workspace_permissions.
Proof.
  set (ws := _fetch_workspace_permissions SlackExamples.listed_users).
  set (cp := default ∅ (snd <$> sync_permissions SlackExamples.example_run)).
  assert (Hrun : sync_permissions SlackExamples.example_run = Some (ws, cp))
    by (vm_compute; reflexivity).
  destruct (public_channels_carry_fetched_emails _ _ _ _ _ _ Hrun)
    as (fetched & Hfetched & _ & Hgroups & Hpublic & Hemails & Hchannels).
  injection Hfetched as <-.
  exists ws, cp. split; [exact Hrun|].
  split; [exact Hgroups|]. split; [exact Hpublic|]. split; [exact Hemails|].
  apply (Hchannels [ {| channel_id := Some "C-pub" |}; {| channel_id := None |} ]
                   [ {| channel_id := Some "C-priv-1" |};
                     {| channel_id := Some "C-priv-2" |} ]);
    [reflexivity | reflexivity | |].
  - apply list_elem_of_In. simpl. auto.
  - intros Hin. apply list_elem_of_In in Hin. simpl in Hin.
    destruct Hin as [Hin | [Hin | []]]; discriminate Hin.
Defined.

(** X15. [_fetch_channel_permissions] returns an entry for exactly the ids
    of the listed channels: a channel dictionary without an ["id"] key gets
    none, and no other key appears. *)
Theorem channel_permissions_keys fuel env slack_client workspace_permissions
    (channel_permissions : gmap string ExternalAccess) w w' :
  _fetch_channel_permissions fuel env slack_client workspace_permissions w
  = (Return channel_permissions, w') ->
  exists public_channels private_channels,
    get_channels env true false = Return public_channels
    /\ get_channels env false true = Return private_channels
    /\ forall channel,
        is_Some (channel_permissions !! channel)
        <-> (exists c, c ∈ public_channels ++ private_channels
                       /\ channel_id c = Some channel).
Proof.
  intros Hrun.
  apply fetch_channel_permissions_entries in Hrun
    as (pubs & privs & Hpubs & Hprivs & Hentries).
  exists pubs, privs. split; [exact Hpubs | split; [exact Hprivs|]].
  intros channel. destruct (Hentries channel) as [Hmine Hother].
  assert (Hids : forall cs, channel ∈ channel_ids cs
                            <-> exists c, c ∈ cs /\ channel_id c = Some channel).
  { intros cs. unfold channel_ids. apply list_elem_of_omap. }
  split.
  - intros Hsome.
    destruct (decide (channel ∈ channel_ids privs)) as [Hin | Hout].
    + apply Hids in Hin as (c & Hc & Hid). exists c. split; [|exact Hid].
      apply elem_of_app. by right.
    + rewrite (Hother Hout) in Hsome.
      destruct (decide (channel ∈ channel_ids pubs)) as [Hin | Hnot];
        [|by destruct Hsome].
      apply Hids in Hin as (c & Hc & Hid). exists c. split; [|exact Hid].
      apply elem_of_app. by left.
  - intros (c & Hc & Hid).
    destruct (decide (channel ∈ channel_ids privs)) as [Hin | Hout].
    + destruct (Hmine Hin) as (emails & ->). eauto.
    + rewrite (Hother Hout).
      apply elem_of_app in Hc as [Hc | Hc].
      * rewrite decide_True; [eauto|]. apply Hids. eauto.
      * exfalso. apply Hout, Hids. eauto.
Qed.

Lemma channel_permissions_keys_witness :
  let run := _fetch_channel_permissions 8 (SlackExamples.workspace []) SlackExamples.client
               (_fetch_workspace_permissions SlackExamples.listed_users)
               {| cache := SlackExamples.listed_users; calls := [] |} in
  exists (channel_permissions : gmap string ExternalAccess) public_channels private_channels,
    fst run = Return channel_permissions
    /\ get_channels (SlackExamples.workspace []) true false = Return public_channels
    /\ get_channels (SlackExamples.workspace []) false true = Return private_channels
    /\ forall channel,
        is_Some (channel_permissions !! channel)
        <-> (exists c, c ∈ public_channels ++ private_channels
                       /\ channel_id c = Some channel).
Proof.
  intros run.
  set (cp := match fst run with Return cp => cp | _ => ∅ end).
  assert (Hreturn : run = (Return cp, snd run)) by (vm_compute; reflexivity).
  destruct (channel_permissions_keys _ _ _ _ _ _ _ Hreturn)
    as (pubs & privs & Hpubs & Hprivs & Hkeys).
  exists cp, pubs, privs. split; [by rewrite Hreturn|]. auto.
Defined.

End ChannelPermissionProperties.

(** ** Text replacement *)

Section TextLemmas.
Import PyStr Text.

Lemma append_cons c (a b : string) : String c a +:+ b = String c (a +:+ b).
Proof. reflexivity. Qed.

Lemma append_empty_l (s : string) : "" +:+ s = s.
Proof. reflexivity. Qed.

Lemma append_empty_r (s : string) : s +:+ "" = s.
Proof. induction s as [|c s IH]; [reflexivity | by rewrite append_cons, IH]. Qed.

Lemma append_assoc (a b c : string) : (a +:+ b) +:+ c = a +:+ b +:+ c.
Proof. induction a as [|x a IH]; [reflexivity | by rewrite !append_cons, IH]. Qed.

Lemma length_append (a b : string) :
  String.length (a +:+ b) = String.length a + String.length b.
Proof.
  induction a as [|x a IH]; [reflexivity|].
  rewrite append_cons. cbn [String.length]. by rewrite IH.
Qed.

Lemma startswith_spec (prefix s : string) :
  startswith prefix s = true <-> exists rest, s = prefix +:+ rest.
Proof.
  revert s. induction prefix as [|a prefix IH]; intros s.
  - split; [intros _; by exists s | reflexivity].
  - destruct s as [|b s]; cbn [startswith].
    + split; [discriminate | intros (rest & Heq); discriminate].
    + destruct (Ascii.eqb a b) eqn:Heqb.
      * apply Ascii.eqb_eq in Heqb as ->. rewrite IH.
        split; intros (rest & Heq); exists rest.
        -- by rewrite append_cons, Heq.
        -- rewrite append_cons in Heq. congruence.
      * apply Ascii.eqb_neq in Heqb.
        split; [discriminate|].
        intros (rest & Heq). rewrite append_cons in Heq. congruence.
Qed.

Lemma startswith_append (prefix rest : string) : startswith prefix (prefix +:+ rest) = true.
Proof. apply startswith_spec. by exists rest. Qed.

Lemma has_char_append c (a b : string) :
  has_char c (a +:+ b) = has_char c a || has_char c b.
Proof.
  induction a as [|x a IH]; [reflexivity|].
  rewrite append_cons. cbn [has_char]. by rewrite IH, orb_assoc.
Qed.

Lemma without_append drop (a b : string) :
  without drop (a +:+ b) = without drop a +:+ without drop b.
Proof.
  induction a as [|x a IH]; [reflexivity|].
  rewrite append_cons. cbn [without].
  destruct (drop x); [exact IH | by rewrite append_cons, IH].
Qed.

(** *** The scan of [replace] *)

Section Scan.
Variables (first : ascii) (old_rest new : string).

Lemma replace_scan_skip (passed s : string) :
  replace_scan (String first old_rest) new (String.length passed) (passed +:+ s)
  = replace_scan (String first old_rest) new 0 s.
Proof.
  induction passed as [|x passed IH]; [reflexivity|].
  rewrite append_cons. exact IH.
Qed.

Lemma replace_scan_match (rest : string) :
  replace_scan (String first old_rest) new 0 ((String first old_rest) +:+ rest) = new +:+ replace_scan (String first old_rest) new 0 rest.
Proof.
  change ((String first old_rest) +:+ rest) with (String first (old_rest +:+ rest)).
  cbn [replace_scan].
  change (String first (old_rest +:+ rest)) with ((String first old_rest) +:+ rest).
  rewrite startswith_append. cbn [String.length].
  replace (S (String.length old_rest) - 1) with (String.length old_rest) by lia.
  by rewrite replace_scan_skip.
Qed.

Lemma replace_scan_copy x (s : string) :
  startswith (String first old_rest) (String x s) = false ->
  replace_scan (String first old_rest) new 0 (String x s) = String x (replace_scan (String first old_rest) new 0 s).
Proof. intros Hno. cbn [replace_scan]. by rewrite Hno. Qed.

(** Induction on the text the way the scan goes through it. *)
Lemma replace_scan_ind (P : string -> string -> Prop) :
  P "" "" ->
  (forall rest, P rest (replace_scan (String first old_rest) new 0 rest) ->
                P ((String first old_rest) +:+ rest) (new +:+ replace_scan (String first old_rest) new 0 rest)) ->
  (forall x s, startswith (String first old_rest) (String x s) = false ->
               P s (replace_scan (String first old_rest) new 0 s) ->
               P (String x s) (String x (replace_scan (String first old_rest) new 0 s))) ->
  forall s, P s (replace_scan (String first old_rest) new 0 s).
Proof.
  intros Hempty Hmatch Hcopy s.
  assert (Hall : forall n s, String.length s <= n -> P s (replace_scan (String first old_rest) new 0 s)).
  { clear s. induction n as [|n IH]; intros s Hlen.
    - destruct s; [exact Hempty | cbn in Hlen; lia].
    - destruct s as [|x s]; [exact Hempty|].
      destruct (startswith (String first old_rest) (String x s)) eqn:Hstart.
      + apply startswith_spec in Hstart as (rest & Heq). rewrite Heq.
        rewrite replace_scan_match. apply Hmatch, IH.
        rewrite Heq, length_append in Hlen. cbn in Hlen. lia.
      + rewrite (replace_scan_copy _ _ Hstart). apply (Hcopy _ _ Hstart), IH.
        cbn in Hlen. lia. }
  by apply (Hall (String.length s)).
Qed.

(** Characters that are dropped from the pattern and [new] alike are all the scan
    can change. *)
Lemma replace_scan_without drop (s : string) :
  without drop (String first old_rest) = without drop new ->
  without drop (replace_scan (String first old_rest) new 0 s) = without drop s.
Proof.
  intros Hsame. apply (replace_scan_ind (fun s out => without drop out = without drop s)).
  - reflexivity.
  - intros rest IH. by rewrite !without_append, IH, Hsame.
  - intros x t _ IH. cbn [without]. by rewrite IH.
Qed.

(** A text without the first character of the pattern is left as it is. *)
Lemma replace_scan_no_first (s : string) :
  has_char first s = false -> replace_scan (String first old_rest) new 0 s = s.
Proof.
  induction s as [|x s IH]; [reflexivity|].
  cbn [has_char]. intros [Hx Hs]%orb_false_elim.
  rewrite replace_scan_copy, (IH Hs); [reflexivity|].
  cbn [startswith]. rewrite Ascii.eqb_sym. by rewrite Hx.
Qed.

Lemma occurs_cons_inv (pattern : string) x (s : string) :
  occurs pattern (String x s) ->
  startswith pattern (String x s) = true \/ occurs pattern s.
Proof.
  intros ([|b before] & after & Heq).
  - left. apply startswith_spec. by exists after.
  - right. rewrite append_cons in Heq. injection Heq as _ ->. by exists before, after.
Qed.

Lemma occurs_after c (rest before s : string) :
  has_char c before = false ->
  occurs (String c rest) (before +:+ s) ->
  occurs (String c rest) s.
Proof.
  induction before as [|x before IH]; [by intros|].
  cbn [has_char]. intros [Hx Hbefore]%orb_false_elim.
  rewrite append_cons. intros [Hstart | Hlater]%occurs_cons_inv; [|by apply IH].
  cbn [startswith] in Hstart. rewrite Ascii.eqb_sym, Hx in Hstart. discriminate.
Qed.

Lemma occurs_suffix (pattern before s : string) :
  occurs pattern s -> occurs pattern (before +:+ s).
Proof.
  intros (b & a & ->). exists (before +:+ b), a. by rewrite append_assoc.
Qed.

Lemma occurs_tail (pattern : string) x (s : string) :
  occurs pattern s -> occurs pattern (String x s).
Proof. apply (occurs_suffix pattern (String x "")). Qed.

Lemma occurs_startswith (pattern s : string) :
  startswith pattern s = true -> occurs pattern s.
Proof. intros (rest & ->)%startswith_spec. by exists "", rest. Qed.

Section Inserted.
Variables (inserted : ascii) (new_rest : string).
Hypothesis Hnew : new = String inserted new_rest.

(** A piece that does not hold the first character of [new] and starts the
    outcome of the scan also starts the text scanned. *)
Lemma startswith_replace_scan (piece s : string) :
  has_char inserted piece = false ->
  startswith piece (replace_scan (String first old_rest) new 0 s) = true ->
  startswith piece s = true.
Proof.
  revert piece. induction s as [|x s IH]; intros piece Hpiece; [by intros|].
  destruct piece as [|p piece]; [reflexivity|].
  cbn [has_char] in Hpiece. apply orb_false_elim in Hpiece as [Hp Hpiece].
  destruct (startswith (String first old_rest) (String x s)) eqn:Hstart.
  - apply startswith_spec in Hstart as (rest & ->).
    rewrite replace_scan_match, Hnew, append_cons. cbn [startswith].
    by rewrite Hp.
  - rewrite (replace_scan_copy _ _ Hstart). cbn [startswith].
    destruct (Ascii.eqb p x); [by apply IH | done].
Qed.

(** After the scan no occurrence of the pattern is left, provided the first
    character of [new] is not in the pattern and the first of the pattern not in [new]. *)
Lemma replace_scan_absent (s : string) :
  has_char inserted (String first old_rest) = false ->
  has_char first new = false ->
  ~ occurs (String first old_rest) (replace_scan (String first old_rest) new 0 s).
Proof.
  intros Hinserted Hfirst.
  apply (replace_scan_ind (fun _ out => ~ occurs (String first old_rest) out)).
  - intros ([|b before] & after & Heq); discriminate.
  - intros rest IH Hocc. by apply IH, (occurs_after _ _ new).
  - intros x t Hstart IH [Hhere | Hlater]%occurs_cons_inv; [|by apply IH].
    cbn [startswith] in Hhere, Hstart.
    destruct (Ascii.eqb first x); [|discriminate].
    cbn [has_char] in Hinserted. apply orb_false_elim in Hinserted as [_ Hrest].
    apply (startswith_replace_scan _ _ Hrest) in Hhere. congruence.
Qed.

(** The scan brings in no occurrence of another pattern, under the same
    kind of condition. *)
Lemma replace_scan_keeps_absent pattern_first (pattern_rest s : string) :
  has_char inserted (String pattern_first pattern_rest) = false ->
  has_char pattern_first new = false ->
  ~ occurs (String pattern_first pattern_rest) s ->
  ~ occurs (String pattern_first pattern_rest) (replace_scan (String first old_rest) new 0 s).
Proof.
  intros Hinserted Hfirst.
  apply (replace_scan_ind
           (fun s out => ~ occurs (String pattern_first pattern_rest) s ->
                         ~ occurs (String pattern_first pattern_rest) out)).
  - auto.
  - intros rest IH Habsent Hocc.
    apply IH; [|by apply (occurs_after _ _ new)].
    intros Hrest. by apply Habsent, occurs_suffix.
  - intros x t _ IH Habsent [Hhere | Hlater]%occurs_cons_inv.
    + apply Habsent, occurs_startswith.
      cbn [startswith] in Hhere |- *.
      destruct (Ascii.eqb pattern_first x); [|discriminate].
      cbn [has_char] in Hinserted. apply orb_false_elim in Hinserted as [_ Hrest].
      by apply (startswith_replace_scan _ _ Hrest).
    + apply IH; [|exact Hlater]. intros Ht. by apply Habsent, occurs_tail.
Qed.

End Inserted.

End Scan.

End TextLemmas.

(** ** What the text cleaning leaves in a message *)

Section CleanerProperties.
Import PyStr Text SlackTextCleaner.

(** X16. After [replace_special_mentions] none of the three special
    mentions [<!channel>], [<!here>], [<!everyone>] occurs in the message:
    every occurrence was replaced and no replacement formed a new one. *)
Theorem replace_special_mentions_leaves_none (message : string) :
  ~ occurs "<!channel>" (replace_special_mentions message)
  /\ ~ occurs "<!here>" (replace_special_mentions message)
  /\ ~ occurs "<!everyone>" (replace_special_mentions message).
Proof.
  unfold replace_special_mentions, replace. cbn zeta. split; [|split].
  - apply (replace_scan_keeps_absent _ _ _ "@" "everyone" eq_refl "<" "!channel>");
      [reflexivity | reflexivity|].
    apply (replace_scan_keeps_absent _ _ _ "@" "here" eq_refl "<" "!channel>");
      [reflexivity | reflexivity|].
    by apply (replace_scan_absent _ _ _ "@" "channel" eq_refl).
  - apply (replace_scan_keeps_absent _ _ _ "@" "everyone" eq_refl "<" "!here>");
      [reflexivity | reflexivity|].
    by apply (replace_scan_absent _ _ _ "@" "here" eq_refl).
  - by apply (replace_scan_absent _ _ _ "@" "everyone" eq_refl).
Qed.

Lemma tag_replace_without user_id (message : string) :
  without is_angle (replace ("<@" +:+ user_id +:+ ">") ("@" +:+ user_id) message)
  = without is_angle message.
Proof.
  change (replace ("<@" +:+ user_id +:+ ">") ("@" +:+ user_id) message)
    with (replace_scan (String "<" (String "@" (user_id +:+ ">")))
                       (String "@" user_id) 0 message).
  apply replace_scan_without. cbn [without is_angle Ascii.eqb Bool.eqb orb].
  by rewrite without_append, append_empty_r.
Qed.

(** X17. [replace_tags_basic] removes angle brackets and nothing else: the
    message without its ["<"] and [">"] characters is the same before and
    after, so every other character is kept, in order. *)
Theorem replace_tags_basic_only_drops_brackets (message : string) :
  without is_angle (replace_tags_basic message) = without is_angle message.
Proof.
  unfold replace_tags_basic. cbn zeta.
  generalize (findall_tags message) as user_ids. intros user_ids.
  generalize message as current. induction user_ids as [|user_id rest IH].
  - reflexivity.
  - intros current. cbn [fold_left]. by rewrite IH, tag_replace_without.
Qed.

Lemma tag_replace_no_bracket user_id (message : string) :
  has_char "<" message = false ->
  replace ("<@" +:+ user_id +:+ ">") ("@" +:+ user_id) message = message.
Proof.
  intros Hnone.
  change (replace ("<@" +:+ user_id +:+ ">") ("@" +:+ user_id) message)
    with (replace_scan (String "<" (String "@" (user_id +:+ ">")))
                       (String "@" user_id) 0 message).
  by apply replace_scan_no_first.
Qed.

Lemma findall_tags_scan_no_bracket (message : string) :
  has_char "<" message = false -> findall_tags_scan 0 message = [].
Proof.
  induction message as [|c message IH]; [reflexivity|].
  cbn [has_char]. intros [Hc Hrest]%orb_false_elim.
  cbn [findall_tags_scan].
  destruct c as [[] [] [] [] [] [] [] []]; try discriminate Hc; by apply IH.
Qed.

(** X18. A message without any ["<"] goes through [replace_tags_basic] and
    [replace_special_mentions] unchanged, and no tag is found in it. *)
Theorem message_without_bracket_is_unchanged (message : string) :
  has_char "<" message = false ->
  findall_tags message = []
  /\ replace_tags_basic message = message
  /\ replace_special_mentions message = message.
Proof.
  intros Hnone.
  assert (Htags : findall_tags message = [])
    by (by apply findall_tags_scan_no_bracket).
  split; [exact Htags|]. split.
  - unfold replace_tags_basic. by rewrite Htags.
  - unfold replace_special_mentions, replace. cbn zeta.
    by rewrite !(replace_scan_no_first _ _ _ message Hnone).
Qed.

Lemma message_without_bracket_is_unchanged_witness :
  findall_tags "ping @here, 2 > 1" = []
  /\ replace_tags_basic "ping @here, 2 > 1" = "ping @here, 2 > 1"
  /\ replace_special_mentions "ping @here, 2 > 1" = "ping @here, 2 > 1".
Proof.
  apply (message_without_bracket_is_unchanged "ping @here, 2 > 1"). reflexivity.
Defined.

Lemma add_zero_width_cons x (message : string) :
  add_zero_width_whitespace_after_tag (String x message)
  = if Ascii.eqb x "@"
    then "@" +:+ ZERO_WIDTH_SPACE +:+ add_zero_width_whitespace_after_tag message
    else String x (add_zero_width_whitespace_after_tag message).
Proof.
  unfold add_zero_width_whitespace_after_tag, replace.
  destruct (Ascii.eqb x "@") eqn:Hx.
  - apply Ascii.eqb_eq in Hx as ->.
    by rewrite (replace_scan_match "@" "" _ message).
  - apply replace_scan_copy. cbn [startswith]. by rewrite Ascii.eqb_sym, Hx.
Qed.

Lemma at_is_followed_by_zero_width_space (message : string) :
  forall before after,
    add_zero_width_whitespace_after_tag message = before +:+ "@" +:+ after ->
    startswith ZERO_WIDTH_SPACE after = true.
Proof.
  induction message as [|x message IH]; intros before after Heq.
  - destruct before; discriminate.
  - rewrite add_zero_width_cons in Heq.
    destruct (Ascii.eqb x "@") eqn:Hx.
    + unfold ZERO_WIDTH_SPACE in Heq at 1.
      repeat rewrite ?append_cons, ?append_empty_l in Heq.
      destruct before as [|b0 before];
        repeat rewrite ?append_cons, ?append_empty_l in Heq.
      * injection Heq as <-. reflexivity.
      * injection Heq as _ Heq.
        do 3 (destruct before as [|? before];
              repeat rewrite ?append_cons, ?append_empty_l in Heq;
              [discriminate | injection Heq as _ Heq]).
        by apply (IH before).
    + destruct before as [|b0 before];
        repeat rewrite ?append_cons, ?append_empty_l in Heq.
      * injection Heq as -> _. by rewrite Ascii.eqb_refl in Hx.
      * injection Heq as _ Heq. by apply (IH before).
Qed.

(** X19. After [add_zero_width_whitespace_after_tag] every ["@"] of the
    message is directly followed by a zero width space, and nothing but
    bytes of zero width spaces was added: apart from those bytes the message
    is the same before and after. *)
Theorem every_at_is_followed_by_zero_width_space (message : string) :
  (forall before after,
      add_zero_width_whitespace_after_tag message = before +:+ "@" +:+ after ->
      startswith ZERO_WIDTH_SPACE after = true)
  /\ without is_zero_width_byte (add_zero_width_whitespace_after_tag message)
     = without is_zero_width_byte message.
Proof.
  split; [apply at_is_followed_by_zero_width_space|].
  unfold add_zero_width_whitespace_after_tag, replace.
  by apply replace_scan_without.
Qed.

Lemma every_at_is_followed_by_zero_width_space_witness :
  startswith ZERO_WIDTH_SPACE (ZERO_WIDTH_SPACE +:+ "bob") = true.
Proof.
  apply (proj1 (every_at_is_followed_by_zero_width_space "hi @bob")
           "hi " (ZERO_WIDTH_SPACE +:+ "bob")).
  reflexivity.
Defined.

End CleanerProperties.

(** ** NUL filtering of bound strings *)

Section NullFilteredStringProperties.
Import PyStr Text NullFilteredString.

Lemma replace_nul_without (text : string) :
  replace NUL "" text = without is_nul text.
Proof.
  unfold replace, NUL. induction text as [|x text IH]; [reflexivity|].
  cbn [without]. unfold is_nul at 1. destruct (Ascii.eqb x "000") eqn:Hx.
  - apply Ascii.eqb_eq in Hx as ->. rewrite <- IH.
    exact (replace_scan_match "000" "" "" text).
  - rewrite replace_scan_copy, IH; [reflexivity|].
    cbn [startswith]. by rewrite Ascii.eqb_sym, Hx.
Qed.

Lemma contains_nul (text : string) : contains NUL text = has_char "000" text.
Proof.
  unfold NUL. induction text as [|x text IH]; [reflexivity|].
  cbn [contains startswith has_char]. rewrite Ascii.eqb_sym.
  destruct (Ascii.eqb x "000"); [reflexivity | exact IH].
Qed.

Lemma without_nul_clean (text : string) :
  has_char "000" text = false -> without is_nul text = text.
Proof.
  induction text as [|x text IH]; [reflexivity|].
  cbn [has_char without]. unfold is_nul at 1.
  intros [-> Hrest]%orb_false_elim. by rewrite IH.
Qed.

Lemma without_nul_has_none (text : string) : has_char "000" (without is_nul text) = false.
Proof.
  induction text as [|x text IH]; [reflexivity|].
  cbn [without]. unfold is_nul at 1. destruct (Ascii.eqb x "000") eqn:Hx; [exact IH|].
  cbn [has_char]. by rewrite Hx, IH.
Qed.

(** X20. [NullFilteredString.process_bind_param] removes exactly the NUL
    characters of a string and keeps the rest in order; what it returns holds
    no NUL, a string without NUL (and [None]) is returned as it is, and
    binding the result again changes nothing. *)
Theorem process_bind_param_removes_nul (value : option string) :
  process_bind_param value = option_map (without is_nul) value
  /\ (forall text, process_bind_param value = Some text -> has_char "000" text = false)
  /\ (forall text, value = Some text -> has_char "000" text = false ->
                   process_bind_param value = value)
  /\ process_bind_param (process_bind_param value) = process_bind_param value.
Proof.
  assert (Hmap : forall v, process_bind_param v = option_map (without is_nul) v).
  { intros [text|]; [|reflexivity]. unfold process_bind_param.
    rewrite contains_nul, replace_nul_without. cbn [option_map].
    destruct (has_char "000" text) eqn:Hnul; [reflexivity|].
    by rewrite without_nul_clean. }
  split; [apply Hmap|]. split; [|split].
  - rewrite Hmap. destruct value as [v|]; [|discriminate].
    intros text [= <-]. apply without_nul_has_none.
  - intros text -> Hclean. rewrite Hmap. cbn. by rewrite without_nul_clean.
  - rewrite !Hmap. destruct value as [v|]; [|reflexivity].
    cbn [option_map]. by rewrite (without_nul_clean _ (without_nul_has_none v)).
Qed.

Lemma process_bind_param_removes_nul_witness :
  let dirty := String "a" (String "000" (String "b" (String "000" ""))) in
  process_bind_param (Some dirty) = Some "ab"
  /\ process_bind_param (Some "ab") = Some "ab".
Proof.
  intros dirty. split.
  - apply (proj1 (process_bind_param_removes_nul (Some dirty))).
  - apply (proj1 (proj2 (proj2 (process_bind_param_removes_nul (Some "ab")))) "ab");
      reflexivity.
Defined.

End NullFilteredStringProperties.

(** ** Replacing user ids by names *)

Section NameReplacementProperties.
Import PyStr SlackSdk SlackTextCleaner NameLookup Resolution.

Variable client : NameClient.

Implicit Types w : names.

(** One turn of the loop, by what the lookup gives. *)
Lemma replace_names_cons user_id rest (message : string) w :
  replace_names client (user_id :: rest) message w
  = match cache w !! user_id with
    | Some name =>
        replace_names client rest
          (replace ("<@" +:+ user_id +:+ ">") ("@" +:+ name) message) w
    | None =>
        let w1 := {| cache := cache w; calls := calls w ++ [CallUsersInfo user_id] |} in
        match looked_up_name client user_id with
        | Return name =>
            replace_names client rest
              (replace ("<@" +:+ user_id +:+ ">") ("@" +:+ name) message)
              {| cache := <[user_id := name]> (cache w); calls := calls w1 |}
        | Raise _ => replace_names client rest message w1
        | OutOfFuel => (OutOfFuel, w1)
        end
    end.
Proof.
  cbn [replace_names]. unfold bind at 1. unfold try_except, bind at 1, get.
  destruct (cache w !! user_id) as [name|] eqn:Hcached.
  - reflexivity.
  - unfold _get_slack_name, looked_up_name.
    unfold update_cache, log, bind, get, modify, lift, ret, raise. cbn [cache calls].
    rewrite Hcached. cbn [cache calls].
    destruct (users_info client user_id) as [response| |]; try reflexivity.
    destruct (name_of_response response) as [name| |]; try reflexivity.
    cbn [cache calls]. by rewrite lookup_insert_eq.
Qed.

(** X21. [_replace_user_ids_with_names] never raises: whatever the lookups
    answer or raise, it returns a message. *)
Theorem replace_user_ids_with_names_returns (message : string) w :
  (forall user_id, users_info client user_id <> OutOfFuel) ->
  exists out w', _replace_user_ids_with_names client message w = (Return out, w').
Proof.
  intros Hanswers. unfold _replace_user_ids_with_names. cbn zeta.
  generalize (findall_tags message) as user_ids. intros user_ids.
  revert message w. induction user_ids as [|user_id rest IH]; intros message w.
  - by eexists _, _.
  - rewrite replace_names_cons.
    destruct (cache w !! user_id); [apply IH|]. cbn zeta.
    unfold looked_up_name. specialize (Hanswers user_id).
    destruct (users_info client user_id) as [response| |]; [|apply IH | contradiction].
    destruct (name_of_response response) eqn:Hname; try apply IH.
    unfold name_of_response in Hname.
    repeat match type of Hname with
           | match ?x with _ => _ end = _ => destruct x; try discriminate
           | (if ?x then _ else _) = _ => destruct x; try discriminate
           end.
Qed.

(** X22. When no found user id is in the map and every lookup fails, the
    message comes back unchanged and the map too; one request was sent per
    tag found, repeated tags included: a failed lookup is not remembered. *)
Theorem replace_user_ids_all_lookups_fail (message : string) w :
  (forall user_id,
      user_id ∈ findall_tags message ->
      cache w !! user_id = None
      /\ exists e, looked_up_name client user_id = Raise e) ->
  _replace_user_ids_with_names client message w
  = (Return message,
     {| cache := cache w;
        calls := calls w ++ map CallUsersInfo (findall_tags message) |}).
Proof.
  unfold _replace_user_ids_with_names. cbn zeta.
  generalize (findall_tags message) as user_ids. intros user_ids.
  revert w. induction user_ids as [|user_id rest IH]; intros w Hfail.
  - destruct w. cbn. unfold ret. by rewrite app_nil_r.
  - rewrite replace_names_cons.
    destruct (Hfail user_id) as (Hnew & e & Hlookup); [apply list_elem_of_here|].
    rewrite Hnew, Hlookup. cbn zeta. rewrite IH.
    + cbn [cache calls map]. by rewrite <- app_assoc.
    + intros other Hin. cbn [cache]. apply Hfail. by apply list_elem_of_further.
Qed.

Lemma replace_names_consistent user_ids :
  forall (message : string) w r w',
    names_consistent client w ->
    replace_names client user_ids message w = (r, w') ->
    names_consistent client w'
    /\ (forall key value, cache w !! key = Some value -> cache w' !! key = Some value).
Proof.
  induction user_ids as [|user_id rest IH]; intros message w r w' Hw Hrun.
  - injection Hrun as <- <-. auto.
  - rewrite replace_names_cons in Hrun.
    destruct (cache w !! user_id) as [cached|] eqn:Hcached; [by apply IH in Hrun|].
    cbn zeta in Hrun.
    assert (Hother : forall other, other <> user_id ->
               users_info_count other (calls w ++ [CallUsersInfo user_id])
               = users_info_count other (calls w)).
    { intros other Hne.
      rewrite users_info_count_app, (users_info_count_other _ _ Hne). lia. }
    assert (Hzero : forall name, looked_up_name client user_id = Return name ->
               users_info_count user_id (calls w) = 0).
    { intros name Hname. destruct (Hw _ _ Hname) as [Hz | [_ Hsome]]; [exact Hz|].
      congruence. }
    destruct (looked_up_name client user_id) as [name| |] eqn:Hlookup.
    + apply IH in Hrun as [Hw' Hkept].
      * split; [exact Hw'|]. intros key value Hkey. apply Hkept. cbn [cache].
        rewrite lookup_insert_ne; [exact Hkey | congruence].
      * intros other found Hfound. cbn [cache calls].
        destruct (decide (other = user_id)) as [-> | Hne].
        -- right. rewrite users_info_count_app, users_info_count_same.
           rewrite (Hzero _ eq_refl), lookup_insert_eq. split; [reflexivity | congruence].
        -- rewrite (Hother _ Hne), lookup_insert_ne by congruence. by apply Hw.
    + apply IH in Hrun as [Hw' Hkept]; [by split|].
      intros other found Hfound. cbn [cache calls].
      destruct (decide (other = user_id)) as [-> | Hne]; [congruence|].
      rewrite (Hother _ Hne). by apply Hw.
    + injection Hrun as <- <-. split; [|auto].
      intros other found Hfound. cbn [cache calls].
      destruct (decide (other = user_id)) as [-> | Hne]; [congruence|].
      rewrite (Hother _ Hne). by apply Hw.
Qed.

(** X23. The cache of names works for lookups that succeed: in a run of
    [_replace_user_ids_with_names] started with no [users_info] request sent,
    a user id whose lookup gives a name is requested at most once, however
    often its tag occurs, and once requested the map holds that name; entries
    the map had are never changed. *)
Theorem replace_user_ids_looks_up_once (message : string) w r w' :
  (forall user_id, users_info_count user_id (calls w) = 0) ->
  _replace_user_ids_with_names client message w = (r, w') ->
  (forall user_id name,
      looked_up_name client user_id = Return name ->
      users_info_count user_id (calls w') <= 1
      /\ (1 <= users_info_count user_id (calls w') -> cache w' !! user_id = Some name))
  /\ (forall key value, cache w !! key = Some value -> cache w' !! key = Some value).
Proof.
  intros Hnone Hrun. unfold _replace_user_ids_with_names in Hrun.
  destruct (replace_names_consistent _ _ w _ _ (fun u n _ => or_introl (Hnone u)) Hrun)
    as [Hw' Hkept].
  split; [|exact Hkept].
  intros user_id name Hname.
  destruct (Hw' _ _ Hname) as [-> | [-> Hcached]]; split; auto; lia.
Qed.

End NameReplacementProperties.

Section NameReplacementExamples.
Import PyStr SlackSdk SlackTextCleaner NameLookup Resolution.

Lemma replace_user_ids_with_names_returns_witness :
  exists out w',
    _replace_user_ids_with_names one_user_client "hi <@U1> and <@U9>"
      {| cache := ∅; calls := [] |}
    = (Return out, w').
Proof.
  apply (replace_user_ids_with_names_returns one_user_client).
  intros user_id. cbn. destruct (String.eqb user_id "U1"); discriminate.
Defined.

Lemma replace_user_ids_all_lookups_fail_witness :
  _replace_user_ids_with_names one_user_client "<@U8> or <@U9>, <@U8>?"
    {| cache := ∅; calls := [] |}
  = (Return "<@U8> or <@U9>, <@U8>?",
     {| cache := ∅;
        calls := [] ++ map CallUsersInfo (findall_tags "<@U8> or <@U9>, <@U8>?") |}).
Proof.
  apply (replace_user_ids_all_lookups_fail one_user_client "<@U8> or <@U9>, <@U8>?"
           {| cache := ∅; calls := [] |}).
  intros user_id Hin. split; [apply lookup_empty|].
  change (findall_tags "<@U8> or <@U9>, <@U8>?") with ["U8"; "U9"; "U8"] in Hin.
  exists SlackApiError.
  repeat (apply elem_of_cons in Hin as [-> | Hin]; [reflexivity|]).
  by apply elem_of_nil in Hin.
Defined.

Lemma replace_user_ids_looks_up_once_witness :
  let run := _replace_user_ids_with_names one_user_client "<@U1>, <@U1> and <@U1>"
               {| cache := ∅; calls := [] |} in
  fst run = Return "@Ann, @Ann and @Ann"
  /\ users_info_count "U1" (calls (snd run)) <= 1
  /\ (1 <= users_info_count "U1" (calls (snd run)) -> cache (snd run) !! "U1" = Some "Ann").
Proof.
  intros run. split; [reflexivity|].
  apply (proj1 (replace_user_ids_looks_up_once one_user_client "<@U1>, <@U1> and <@U1>"
                  {| cache := ∅; calls := [] |} (fst run) (snd run)
                  (fun _ => eq_refl) (surjective_pairing run))).
  reflexivity.
Defined.

End NameReplacementExamples.

(** ** The order of chat folders *)

Section ChatFolderProperties.
Import ChatFolder.

(** X24. On folders whose [display_priority] is set, [__lt__] is a strict
    total order: a folder is smaller when its priority is smaller or, at the
    same priority, when its id is bigger. No folder is smaller than itself,
    the order is transitive, and of two folders with different ids exactly
    one is smaller than the other. *)
Theorem chat_folder_lt_strict_order a b c pa pb pc :
  display_priority a = Some pa ->
  display_priority b = Some pb ->
  display_priority c = Some pc ->
  (__lt__ a b = Return true <-> (pa < pb \/ (pa = pb /\ id b < id a)))%Z
  /\ (exists answer, __lt__ a b = Return answer)
  /\ __lt__ a a = Return false
  /\ (__lt__ a b = Return true -> __lt__ b c = Return true -> __lt__ a c = Return true)
  /\ (id a <> id b ->
      (__lt__ a b = Return true /\ __lt__ b a = Return false)
      \/ (__lt__ a b = Return false /\ __lt__ b a = Return true)).
Proof.
  intros Ha Hb Hc. unfold __lt__, same_priority. rewrite Ha, Hb, Hc.
  assert (Hlt : forall x y (p q : Z),
             (if (p =? q)%Z then Return (x >? y)%Z else Return (p <? q)%Z)
             = Return (if (p =? q)%Z then (x >? y)%Z else (p <? q)%Z))
    by (intros; by destruct (_ =? _)%Z).
  rewrite !Hlt.
  assert (Hiff : forall x y (p q : Z),
             (if (p =? q)%Z then (x >? y)%Z else (p <? q)%Z) = true
             <-> (p < q \/ (p = q /\ y < x))%Z).
  { intros x y p q. destruct (Z.eqb_spec p q) as [-> | Hne].
    - rewrite Z.gtb_ltb, Z.ltb_lt. lia.
    - rewrite Z.ltb_lt. lia. }
  split; [|split; [|split; [|split]]].
  - split; [intros [= H]; by apply Hiff | intros H; f_equal; by apply Hiff].
  - eauto.
  - f_equal. apply not_true_iff_false. rewrite Hiff. lia.
  - intros [= Hab] [= Hbc]. f_equal. apply Hiff in Hab, Hbc. apply Hiff. lia.
  - intros Hne.
    destruct (if (pa =? pb)%Z then (id a >? id b)%Z else (pa <? pb)%Z) eqn:Hab;
      destruct (if (pb =? pa)%Z then (id b >? id a)%Z else (pb <? pa)%Z) eqn:Hba;
      auto.
    + apply Hiff in Hab, Hba. lia.
    + apply not_true_iff_false in Hab, Hba. rewrite Hiff in Hab, Hba. lia.
Qed.

Lemma chat_folder_lt_strict_order_witness :
  let older := {| id := 1%Z; display_priority := Some 0%Z |} in
  let newer := {| id := 2%Z; display_priority := Some 0%Z |} in
  let low := {| id := 3%Z; display_priority := Some 5%Z |} in
  __lt__ newer older = Return true
  /\ __lt__ older low = Return true
  /\ __lt__ newer low = Return true.
Proof.
  intros older newer low.
  destruct (chat_folder_lt_strict_order newer older low 0 0 5 eq_refl eq_refl eq_refl)
    as (Hiff & _ & _ & Htrans & _).
  assert (H1 : __lt__ newer older = Return true) by (apply Hiff; cbn; lia).
  split; [exact H1 | split; [reflexivity | by apply Htrans]].
Defined.

End ChatFolderProperties.

(** ** Sorting and grouping sub-questions *)

Section SortedProperties.
Import ChatModels Ordering.

Context {A : Type} (lt : A -> A -> bool).

Lemma insert_sorted_perm x (l : list A) : insert_sorted lt x l ≡ₚ (x :: l).
Proof.
  induction l as [|y l IH]; [reflexivity|].
  cbn [insert_sorted]. destruct (lt y x); [|reflexivity].
  rewrite IH. apply Permutation_swap.
Qed.

Lemma sorted_perm (l : list A) : sorted lt l ≡ₚ l.
Proof.
  induction l as [|x l IH]; [reflexivity|].
  cbn [sorted fold_right]. fold (sorted lt l). by rewrite insert_sorted_perm, IH.
Qed.

Hypothesis lt_asym : forall x y, lt x y = true -> lt y x = false.

Lemma insert_sorted_head x y (l : list A) :
  lt y x = true ->
  HdRel (not_after lt) y l ->
  HdRel (not_after lt) y (insert_sorted lt x l).
Proof.
  intros Hyx Hhd. destruct l as [|z l]; cbn [insert_sorted].
  - constructor. by apply lt_asym.
  - destruct (lt z x).
    + constructor. by inversion Hhd.
    + constructor. by apply lt_asym.
Qed.

Lemma insert_sorted_Sorted x (l : list A) :
  Sorted (not_after lt) l -> Sorted (not_after lt) (insert_sorted lt x l).
Proof.
  induction 1 as [|y l Hsorted IH Hhd]; cbn [insert_sorted].
  - repeat constructor.
  - destruct (lt y x) eqn:Hyx.
    + constructor; [exact IH | by apply insert_sorted_head].
    + constructor; [by constructor | by constructor].
Qed.

Lemma sorted_Sorted (l : list A) : Sorted (not_after lt) (sorted lt l).
Proof.
  induction l as [|x l IH]; [constructor|].
  cbn [sorted fold_right]. by apply insert_sorted_Sorted.
Qed.

End SortedProperties.

Section GroupingProperties.
Import ChatModels Ordering.

Implicit Types level_dict : list (Z * list SubQuestionIdentifier).
Implicit Types original_dict : list ((Z * Z) * SubQuestionIdentifier).

Lemma append_at_keys l obj level_dict :
  map fst (append_at l obj level_dict)
  = if decide (l ∈ map fst level_dict) then map fst level_dict
    else map fst level_dict ++ [l].
Proof.
  induction level_dict as [|[k objs] rest IH]; [reflexivity|].
  cbn [append_at map fst]. destruct (Z.eqb_spec k l) as [-> | Hne].
  - rewrite decide_True by apply list_elem_of_here. reflexivity.
  - cbn [map fst]. rewrite IH.
    destruct (decide (l ∈ map fst rest)) as [Hin | Hout].
    + rewrite decide_True by (by apply list_elem_of_further). reflexivity.
    + rewrite decide_False; [reflexivity|].
      intros [Heq | Hin]%elem_of_cons; [congruence | contradiction].
Qed.

Lemma append_at_NoDup l obj level_dict :
  NoDup (map fst level_dict) -> NoDup (map fst (append_at l obj level_dict)).
Proof.
  intros Hnodup. rewrite append_at_keys. destruct (decide _) as [Hin | Hout]; [done|].
  apply NoDup_app. split; [done|]. split; [|apply NoDup_singleton].
  intros x Hx ->%list_elem_of_singleton. contradiction.
Qed.

(** The entries after [append_at], while the levels are distinct. *)
Lemma append_at_entries l obj level_dict k objs :
  NoDup (map fst level_dict) ->
  (k, objs) ∈ append_at l obj level_dict
  <-> (k <> l /\ (k, objs) ∈ level_dict)
      \/ (k = l /\ (exists old, (l, old) ∈ level_dict /\ objs = old ++ [obj]))
      \/ (k = l /\ (l ∉ map fst level_dict) /\ objs = [obj]).
Proof.
  induction level_dict as [|[k0 objs0] rest IH]; intros Hnodup.
  - cbn [append_at map]. rewrite list_elem_of_singleton. split.
    + intros [= -> ->]. right. right. split; [done|]. split; [apply not_elem_of_nil | done].
    + intros [[_ Hin] | [(_ & old & Hin & _) | (-> & _ & ->)]];
        [by apply elem_of_nil in Hin | by apply elem_of_nil in Hin | done].
  - cbn [map fst] in Hnodup. apply NoDup_cons in Hnodup as [Hfresh Hnodup].
    cbn [append_at]. destruct (Z.eqb_spec k0 l) as [-> | Hne].
    + split.
      * intros [[= -> ->] | Hin]%elem_of_cons.
        -- right. left. split; [done|]. exists objs0. split; [apply list_elem_of_here | done].
        -- left. split; [|by apply list_elem_of_further]. intros ->. apply Hfresh.
           apply list_elem_of_fmap. by exists (l, objs).
      * intros [[Hk Hin] | [(-> & old & Hin & ->) | (-> & Hout & ->)]].
        -- apply elem_of_cons in Hin as [[= Heq _] | Hin]; [congruence|].
           by apply list_elem_of_further.
        -- apply elem_of_cons in Hin as [[= ->] | Hin]; [apply list_elem_of_here|].
           exfalso. apply Hfresh. apply list_elem_of_fmap. by exists (l, old).
        -- exfalso. apply Hout. cbn [map fst]. apply list_elem_of_here.
    + rewrite elem_of_cons, (IH Hnodup). cbn [map fst]. split.
      * intros [[= -> ->] | [[Hk Hin] | [(-> & old & Hin & ->) | (-> & Hout & ->)]]].
        -- left. split; [done | apply list_elem_of_here].
        -- left. split; [done | by apply list_elem_of_further].
        -- right. left. split; [done|]. exists old.
           split; [by apply list_elem_of_further | done].
        -- right. right. split; [done|]. split; [|done].
           intros [Heq | Hin]%elem_of_cons; [congruence | contradiction].
      * intros [[Hk Hin] | [(-> & old & Hin & ->) | (-> & Hout & ->)]].
        -- apply elem_of_cons in Hin as [[= -> ->] | Hin]; [by left|].
           right. left. done.
        -- apply elem_of_cons in Hin as [[= Heq _] | Hin]; [congruence|].
           right. right. left. split; [done|]. by exists old.
        -- right. right. right. split; [done|]. split; [|done].
           intros Hin. apply Hout. by apply list_elem_of_further.
Qed.

Lemma values_at_snoc l original_dict item :
  values_at l (original_dict ++ [item])
  = values_at l original_dict ++ (if decide (fst (fst item) = l) then [snd item] else []).
Proof.
  unfold values_at. rewrite filter_app, map_app. f_equal.
  rewrite filter_cons. by destruct (decide _).
Qed.

(** The dictionary after the grouping loop: distinct levels, and under each
    level that occurs the objects filed under it, in iteration order. *)
Lemma grouped_entries original_dict :
  let level_dict :=
    fold_left (fun level_dict item => append_at (fst (fst item)) (snd item) level_dict)
              original_dict [] in
  NoDup (map fst level_dict)
  /\ forall l objs,
      (l, objs) ∈ level_dict
      <-> objs = values_at l original_dict /\ objs <> [].
Proof.
  induction original_dict as [|item done IH] using rev_ind.
  - cbn. split; [constructor|]. intros l objs. split.
    + intros Hin. by apply elem_of_nil in Hin.
    + intros [-> Hne]. done.
  - cbn zeta in *. rewrite fold_left_app. cbn [fold_left].
    destruct IH as [Hnodup Hentries].
    split; [by apply append_at_NoDup|].
    intros l objs. rewrite (append_at_entries _ _ _ _ _ Hnodup), values_at_snoc.
    split.
    + intros [[Hk Hin] | [(-> & old & Hin & ->) | (-> & Hout & ->)]].
      * apply Hentries in Hin as [-> Hne].
        rewrite decide_False by congruence. by rewrite app_nil_r.
      * apply Hentries in Hin as [-> Hne]. rewrite decide_True by done.
        split; [done|]. by destruct (values_at _ done).
      * rewrite decide_True by done. split; [|done].
        destruct (values_at (fst (fst item)) done) as [|v vs] eqn:Hvalues; [done|].
        exfalso. apply Hout. apply list_elem_of_fmap.
        exists (fst (fst item), v :: vs). split; [done|].
        apply Hentries. by rewrite Hvalues.
    + intros [-> Hne]. destruct (decide (fst (fst item) = l)) as [<- | Hother].
      * destruct (values_at (fst (fst item)) done) as [|v vs] eqn:Hvalues.
        -- right. right. split; [done|]. split; [|done].
           intros [[k objs] [Hk Hin]]%list_elem_of_fmap. cbn in Hk. subst k.
           apply Hentries in Hin as [-> Hne']. by rewrite Hvalues in Hne'.
        -- right. left. split; [done|]. exists (v :: vs). split; [|done].
           apply Hentries. by rewrite Hvalues.
      * left. rewrite app_nil_r in Hne |- *. split; [congruence|].
        by apply Hentries.
Qed.

Lemma Sorted_weaken {A} (R R' : A -> A -> Prop) (l : list A) :
  (forall a b, R a b -> R' a b) -> Sorted R l -> Sorted R' l.
Proof.
  intros Himpl. induction 1 as [|a l Hsorted IH Hhd]; constructor; [exact IH|].
  destruct Hhd; constructor. by apply Himpl.
Qed.

Lemma strictly_ascending_levels (items : list (Z * list SubQuestionIdentifier)) :
  Sorted (not_after (fun a b => (fst a <? fst b)%Z)) items ->
  NoDup (map fst items) ->
  Sorted (fun a b => (fst a < fst b)%Z) items.
Proof.
  induction 1 as [|a items Hsorted IH Hhd]; [constructor|].
  cbn [map]. intros [Hfresh Hnodup]%NoDup_cons.
  constructor; [by apply IH|].
  destruct Hhd as [|b items' Hab]; constructor.
  unfold not_after in Hab. apply Z.ltb_ge in Hab.
  assert (fst a <> fst b); [|lia].
  intros Heq. apply Hfresh. cbn [map]. rewrite Heq. apply list_elem_of_here.
Qed.

Lemma question_num_lt_asym a b :
  question_num_lt a b = true -> question_num_lt b a = false.
Proof.
  unfold question_num_lt.
  destruct (level_question_num a), (level_question_num b); try done.
  rewrite Z.ltb_lt, Z.ltb_ge. lia.
Qed.

Lemma question_num_not_after a b :
  not_after question_num_lt a b -> question_num_le a b.
Proof.
  unfold not_after, question_num_lt, question_num_le.
  destruct (level_question_num a), (level_question_num b); try done.
  by rewrite Z.ltb_ge.
Qed.

(** The entries of the result, by those of the grouping. *)
Lemma make_dict_by_level_entries original_dict l objs :
  (l, objs) ∈ make_dict_by_level original_dict
  <-> objs = sorted question_num_lt (values_at l original_dict)
      /\ values_at l original_dict <> [].
Proof.
  unfold make_dict_by_level. cbn zeta.
  destruct (grouped_entries original_dict) as [_ Hentries]. cbn zeta in Hentries.
  rewrite sorted_perm, list_elem_of_fmap. split.
  - intros ([k group] & [= -> ->] & Hin). cbn [fst snd].
    apply Hentries in Hin as [-> Hne]. done.
  - intros [-> Hne]. exists (l, values_at l original_dict). split; [done|].
    by apply Hentries.
Qed.

(** X25. The result of [make_dict_by_level] lists the levels in strictly
    ascending order, each level once, and has an entry for exactly the
    levels that occur as the first component of a key of the dictionary. *)
Theorem make_dict_by_level_levels original_dict :
  Sorted (fun a b => (fst a < fst b)%Z) (make_dict_by_level original_dict)
  /\ forall l,
      l ∈ map fst (make_dict_by_level original_dict)
      <-> exists item, item ∈ original_dict /\ fst (fst item) = l.
Proof.
  split.
  - apply strictly_ascending_levels.
    + unfold make_dict_by_level. cbn zeta. apply sorted_Sorted.
      intros x y. rewrite Z.ltb_lt, Z.ltb_ge. lia.
    + unfold make_dict_by_level. cbn zeta.
      destruct (grouped_entries original_dict) as [Hnodup _]. cbn zeta in Hnodup.
      rewrite sorted_perm, map_map. cbn [fst]. exact Hnodup.
  - intros l. rewrite list_elem_of_fmap. split.
    + intros ([k objs] & -> & Hin). cbn [fst].
      apply make_dict_by_level_entries in Hin as [_ Hne].
      unfold values_at in Hne.
      destruct (filter _ original_dict) as [|item items] eqn:Hfilter; [done|].
      assert (Hitem : item ∈ filter (fun item => fst (fst item) = k) original_dict)
        by (rewrite Hfilter; apply list_elem_of_here).
      apply list_elem_of_filter in Hitem as [Hk Hitem]. eauto.
    + intros (item & Hitem & <-).
      exists (fst (fst item),
              sorted question_num_lt (values_at (fst (fst item)) original_dict)).
      split; [done|]. apply make_dict_by_level_entries. split; [done|].
      unfold values_at. intros Hnil. apply fmap_nil_inv in Hnil.
      assert (Hin : item ∈ filter (fun i => fst (fst i) = fst (fst item)) original_dict)
        by (by apply list_elem_of_filter).
      rewrite Hnil in Hin. by apply elem_of_nil in Hin.
Qed.

(** X26. Under each level the result holds exactly the objects whose key has
    that level (whatever their own [level] field says), each as often as it
    was filed, sorted by [level_question_num] ascending with the objects
    without a number last; no entry is empty. *)
Theorem make_dict_by_level_groups original_dict l objs :
  (l, objs) ∈ make_dict_by_level original_dict ->
  objs ≡ₚ values_at l original_dict
  /\ Sorted question_num_le objs
  /\ objs <> [].
Proof.
  intros [-> Hne]%make_dict_by_level_entries.
  split; [apply sorted_perm|]. split.
  - apply (Sorted_weaken (not_after question_num_lt)).
    + intros a b. apply question_num_not_after.
    + apply sorted_Sorted, question_num_lt_asym.
  - intros Hnil. apply Hne. apply Permutation_nil_r.
    by rewrite <- (sorted_perm question_num_lt), Hnil.
Qed.

End GroupingProperties.

Section GroupingExamples.
Import ChatModels Ordering.

Lemma make_dict_by_level_groups_witness :
  let objs := [ {| level := Some 1%Z; level_question_num := Some 3%Z |};
                {| level := Some 1%Z; level_question_num := None |} ] in
  objs ≡ₚ values_at 1 example_dict
  /\ Sorted question_num_le objs
  /\ objs <> [].
Proof.
  intros objs. apply (make_dict_by_level_groups example_dict 1%Z objs).
  vm_compute. apply list_elem_of_here.
Defined.

End GroupingExamples.

(** ** Message links *)

Section MessageLinkProperties.
Import PyStr Text SlackMessageLink.

Lemma rstrip_cons c x (s : string) :
  rstrip c (String x s)
  = match rstrip c s with
    | EmptyString => if Ascii.eqb x c then EmptyString else String x EmptyString
    | String y rest => String x (String y rest)
    end.
Proof. cbn [rstrip]. by destruct (rstrip c s). Qed.

(** [rstrip] cuts off a run of the character at the end, and all of it. *)
Lemma rstrip_spec c (s : string) :
  (exists cut, s = rstrip c s +:+ cut /\ without (fun x => negb (Ascii.eqb x c)) cut = cut)
  /\ forall before, rstrip c s <> before +:+ String c "".
Proof.
  induction s as [|x s [(cut & Hcut & Hall) Hend]].
  - split; [by exists "" | intros [|b before]; discriminate].
    - rewrite rstrip_cons. destruct (rstrip c s) as [|y rest] eqn:Hstrip.
    + destruct (Ascii.eqb x c) eqn:Hx.
      * split; [|intros [|b before]; discriminate].
        exists (String x s). split; [reflexivity|].
        rewrite append_empty_l in Hcut. subst cut.
        cbn [without]. by rewrite Hx, Hall.
      * split.
        -- exists s. split; [reflexivity|]. rewrite append_empty_l in Hcut. by subst cut.
        -- intros [|b before] Heq; rewrite ?append_cons, ?append_empty_l in Heq.
           ++ injection Heq as ->. by rewrite Ascii.eqb_refl in Hx.
           ++ injection Heq as _ Heq. destruct before; discriminate.
    + split.
      * exists cut. split; [|exact Hall]. by rewrite append_cons, <- Hcut.
      * intros [|b before] Heq; rewrite ?append_cons, ?append_empty_l in Heq.
        -- discriminate.
        -- injection Heq as _ Heq. by apply (Hend before).
Qed.

Lemma replace_char_without c (s : string) :
  replace (String c "") "" s = without (fun x => Ascii.eqb x c) s.
Proof.
  unfold replace. induction s as [|x s IH]; [reflexivity|].
  cbn [without]. destruct (Ascii.eqb x c) eqn:Hx.
  - apply Ascii.eqb_eq in Hx as ->. rewrite <- IH.
    exact (replace_scan_match c "" "" s).
  - rewrite replace_scan_copy, IH; [reflexivity|].
    cbn [startswith]. by rewrite Ascii.eqb_sym, Hx.
Qed.

(** X27. [get_message_link] raises [KeyError] for an event without ["ts"];
    otherwise the link is the base url cut before its trailing slashes (all
    of them), then [/archives/], the channel id, [/p] and the timestamp
    without its dots, then [?thread_ts=] and the thread timestamp when the
    event has a non-empty one. *)
Theorem get_message_link_shape event base_url channel_id :
  (ts event = None ->
   get_message_link event base_url channel_id = Raise (KeyError "ts"))
  /\ (forall message_ts,
        ts event = Some message_ts ->
        exists base slashes,
          base_url = base +:+ slashes
          /\ without (fun x => negb (is_slash x)) slashes = slashes
          /\ (forall before, base <> before +:+ "/")
          /\ get_message_link event base_url channel_id
             = Return (base +:+ "/archives/" +:+ channel_id +:+ "/p"
                       +:+ without is_dot message_ts
                       +:+ match thread_ts event with
                           | Some (String c thread) =>
                               "?thread_ts=" +:+ String c thread
                           | _ => ""
                           end)).
Proof.
  unfold get_message_link. split; [by intros ->|].
  intros message_ts ->.
  destruct (rstrip_spec "/" base_url) as [(cut & Hcut & Hall) Hend].
  exists (rstrip "/" base_url), cut.
  split; [exact Hcut|]. split; [exact Hall|]. split; [exact Hend|].
  cbn zeta. rewrite (replace_char_without "." message_ts).
  by destruct (thread_ts event) as [[|c thread]|].
Qed.

Lemma get_message_link_shape_witness :
  get_message_link {| ts := None; thread_ts := None |} "https://x.slack.com/" "C1"
  = Raise (KeyError "ts")
  /\ exists base slashes,
      "https://x.slack.com//" = base +:+ slashes
      /\ without (fun x => negb (is_slash x)) slashes = slashes
      /\ (forall before, base <> before +:+ "/")
      /\ get_message_link {| ts := Some "1700000000.000100"; thread_ts := Some "1699.5" |}
           "https://x.slack.com//" "C1"
         = Return (base +:+ "/archives/" +:+ "C1" +:+ "/p"
                   +:+ without is_dot "1700000000.000100"
                   +:+ "?thread_ts=" +:+ "1699.5").
Proof.
  split.
  - apply (proj1 (get_message_link_shape {| ts := None; thread_ts := None |}
                    "https://x.slack.com/" "C1")).
    reflexivity.
  - apply (proj2 (get_message_link_shape
                    {| ts := Some "1700000000.000100"; thread_ts := Some "1699.5" |}
                    "https://x.slack.com//" "C1") "1700000000.000100").
    reflexivity.
Defined.

End MessageLinkProperties.
